(** * cbsyst.carbon_fns: the carbonate equilibrium solver

    A shallow embedding of [cbsyst/carbon_fns.py] in exact real arithmetic.

    The Python functions are duck-typed: the same arithmetic expression is
    evaluated on plain floats, on numbers carrying an uncertainty and on
    numpy arrays.  The embedding follows that: every formula is written once,
    over an arbitrary number type [T] with the operators the source uses
    ([+], [-], [*], [/], [**] and integer literals), and is then read at

    - [pyfloat]: a real number, or the exception a Python float operation
      raises (division by zero);
    - [pyarray]: a 0-d or 1-d array of reals with numpy broadcasting, the
      type the residual closures are evaluated at by the root finder;
    - [pyufloat]: a number with an attached first-order uncertainty;
    - [pypoly]: a polynomial in the unknown h, to see which residuals divide
      by constants only. *)

From Stdlib Require Import Reals Lra Field List Arith Lia ZArith Bool Btauto.
Import ListNotations.

Set Implicit Arguments.

(** ** Results of Python evaluations *)

Inductive exn : Type :=
| ZeroDivisionError
| ValueError
| TypeError.

Inductive result (A : Type) : Type :=
| Ok (a : A)
| Err (e : exn).

Arguments Ok {A} a.
Arguments Err {A} e.

Definition bind {A B : Type} (r : result A) (k : A -> result B) : result B :=
  match r with
  | Ok a => k a
  | Err e => Err e
  end.

Declare Scope result_scope.
Delimit Scope result_scope with result.
Notation "x <- r ;; k" := (bind r (fun x => k))
  (at level 61, r at next level, right associativity) : result_scope.

(** Operands are evaluated left to right, then the operator is applied. *)
Definition lift2 {A B C : Type} (f : A -> B -> result C)
  (x : result A) (y : result B) : result C :=
  (a <- x ;; b <- y ;; f a b)%result.

(** ** The arithmetic interface the formulas rely on *)

Class Num (T : Type) : Type := {
  lit : Z -> T;
  add : T -> T -> T;
  sub : T -> T -> T;
  mul : T -> T -> T;
  div : T -> T -> T;
  pow : T -> nat -> T
}.

Declare Scope py_scope.
Delimit Scope py_scope with py.
Notation "x + y" := (add x y) : py_scope.
Notation "x - y" := (sub x y) : py_scope.
Notation "x * y" := (mul x y) : py_scope.
Notation "x / y" := (div x y) : py_scope.
Notation "x ** n" := (pow x n) (at level 30, right associativity) : py_scope.
Notation "'1'" := (lit 1%Z) : py_scope.
Notation "'2'" := (lit 2%Z) : py_scope.

(** The constants bundle: an object exposing [K1], [K2], [KB] and [KW]. *)
Record Ks_t (T : Type) : Type := mkKs {
  K1 : T;
  K2 : T;
  KB : T;
  KW : T
}.

(** ** Python floats, in exact arithmetic *)

Definition pyfloat : Type := result R.

(** Division of Python floats raises on a zero divisor. *)
Definition fdiv (x y : R) : result R :=
  if Req_dec_T y 0 then Err ZeroDivisionError else Ok (x / y)%R.

#[export] Instance Num_pyfloat : Num pyfloat := {
  lit z := Ok (IZR z);
  add := lift2 (fun x y => Ok (x + y)%R);
  sub := lift2 (fun x y => Ok (x - y)%R);
  mul := lift2 (fun x y => Ok (x * y)%R);
  div := lift2 fdiv;
  pow x n := (a <- x ;; Ok (a ^ n)%R)%result
}.

(** ** Formulas of the source, over any number type *)

Section Formulas.
Context {T : Type} `{Num T}.
Local Open Scope py_scope.

(** *** Concentration converters *)

Definition cCO2 (H DIC : T) (Ks : Ks_t T) : T :=
  DIC / (1 + K1 Ks / H + K1 Ks * K2 Ks / H ** 2).

Definition cHCO3 (H DIC : T) (Ks : Ks_t T) : T :=
  DIC / (1 + H / K1 Ks + K2 Ks / H).

Definition cCO3 (H DIC : T) (Ks : Ks_t T) : T :=
  DIC / (1 + H / K2 Ks + H ** 2 / (K1 Ks * K2 Ks)).

Definition cTA (CO2 H BT : T) (Ks : Ks_t T) : T :=
  CO2 * (K1 Ks / H + 2 * K1 Ks * K2 Ks / H ** 2) +
  BT * KB Ks / (KB Ks + H) + KW Ks / H - H.

(** *** Direct-formula solvers (pH known)

    [ch] is imported from [cbsyst.boron_fns]; it is a parameter here. *)

Variable ch : T -> T.

Definition CO2_pH (CO2 pH : T) (Ks : Ks_t T) : T :=
  let h := ch pH in
  CO2 * (1 + K1 Ks / h + K1 Ks * K2 Ks / h ** 2).

Definition pH_HCO3 (pH HCO3 : T) (Ks : Ks_t T) : T :=
  let h := ch pH in
  HCO3 * (1 + h / K1 Ks + K2 Ks / h).

Definition pH_CO3 (pH CO3 : T) (Ks : Ks_t T) : T :=
  let h := ch pH in
  CO3 * (1 + h / K2 Ks + h ** 2 / (K1 Ks * K2 Ks)).

Definition pH_TA (pH TA BT : T) (Ks : Ks_t T) : T :=
  let h := ch pH in
  (TA - KB Ks * BT / (KB Ks + h) - KW Ks / h + h) /
  (K1 Ks / h + 2 * K1 Ks * K2 Ks / h ** 2).

Definition pH_DIC (pH DIC : T) (Ks : Ks_t T) : T :=
  let h := ch pH in
  DIC / (1 + K1 Ks / h + K1 Ks * K2 Ks / h ** 2).

(** *** Residuals of the implicit solvers (the nested [zero_*] closures) *)

Definition zero_CO2_HCO3 (h CO2 HCO3 : T) (Ks : Ks_t T) : T :=
  let LH := CO2 * (h ** 2 + K1 Ks * h + K1 Ks * K2 Ks) in
  let RH := HCO3 * (h ** 2 + h ** 3 / K1 Ks + K2 Ks * h) in
  LH - RH.

Definition zero_CO2_CO3 (h CO2 CO3 : T) (Ks : Ks_t T) : T :=
  let LH := CO2 * (h ** 2 + K1 Ks * h + K1 Ks * K2 Ks) in
  let RH := CO3 * (h ** 2 + h ** 3 / K2 Ks + h ** 4 / (K1 Ks * K2 Ks)) in
  LH - RH.

Definition zero_CO2_TA (h CO2 TA BT : T) (Ks : Ks_t T) : T :=
  let LH := TA * h ** 2 * (KB Ks + h) in
  let RH := (CO2 * (KB Ks + h) * (K1 Ks * h + 2 * K1 Ks * K2 Ks) +
             h ** 2 * KB Ks * BT + (KB Ks + h) * (KW Ks * h - h ** 3)) in
  LH - RH.

Definition zero_CO2_DIC (h CO2 DIC : T) (Ks : Ks_t T) : T :=
  let LH := DIC * h ** 2 in
  let RH := CO2 * (h ** 2 + K1 Ks * h + K1 Ks * K2 Ks) in
  LH - RH.

Definition zero_HCO3_CO3 (h HCO3 CO3 : T) (Ks : Ks_t T) : T :=
  let LH := HCO3 * (h + h ** 2 / K1 Ks + K2 Ks) in
  let RH := CO3 * (h + h ** 2 / K2 Ks + h ** 3 / (K1 Ks * K2 Ks)) in
  LH - RH.

Definition zero_HCO3_TA (h HCO3 TA BT : T) (Ks : Ks_t T) : T :=
  let LH := TA * (KB Ks + h) * (h ** 3 + K1 Ks * h ** 2 + K1 Ks * K2 Ks * h) in
  let RH := ((HCO3 * (h + h ** 2 / K1 Ks + K2 Ks) *
              ((KB Ks + 2 * K2 Ks) * K1 Ks * h + 2 * KB Ks * K1 Ks * K2 Ks +
               K1 Ks * h ** 2)) +
             ((h ** 2 + K1 Ks * h + K1 Ks * K2 Ks) *
              (KB Ks * BT * h + KW Ks * KB Ks + KW Ks * h - KB Ks * h ** 2 -
               h ** 3))) in
  LH - RH.

Definition zero_HCO3_DIC (h HCO3 DIC : T) (Ks : Ks_t T) : T :=
  let LH := HCO3 * (h + h ** 2 / K1 Ks + K2 Ks) in
  let RH := h * DIC in
  LH - RH.

Definition zero_CO3_TA (h CO3 TA BT : T) (Ks : Ks_t T) : T :=
  let LH := TA * (KB Ks + h) * (h ** 3 + K1 Ks * h ** 2 + K1 Ks * K2 Ks * h) in
  let RH := ((CO3 * (h + h ** 2 / K2 Ks + h ** 3 / (K1 Ks * K2 Ks)) *
              (K1 Ks * h ** 2 + K1 Ks * h * (KB Ks + 2 * K2 Ks) +
               2 * KB Ks * K1 Ks * K2 Ks)) +
             ((h ** 2 + K1 Ks * h + K1 Ks * K2 Ks) *
              (KB Ks * BT * h + KW Ks * KB Ks + KW Ks * h - KB Ks * h ** 2 -
               h ** 3))) in
  LH - RH.

Definition zero_CO3_DIC (h CO3 DIC : T) (Ks : Ks_t T) : T :=
  let LH := CO3 * (1 + h / K2 Ks + h ** 2 / (K1 Ks * K2 Ks)) in
  let RH := DIC in
  LH - RH.

Definition zero_TA_DIC (h TA DIC BT : T) (Ks : Ks_t T) : T :=
  let LH := DIC * (KB Ks + h) * (K1 Ks * h ** 2 + 2 * K1 Ks * K2 Ks * h) in
  let RH := ((TA * (KB Ks + h) * h -
              KB Ks * BT * h -
              KW Ks * (KB Ks + h) +
              (KB Ks + h) * h ** 2) *
             (h ** 2 +
              K1 Ks * h +
              K1 Ks * K2 Ks)) in
  LH - RH.

End Formulas.

(** Modelled from the spec: [ch] of [cbsyst.boron_fns], the pH converter the
    direct-formula solvers import; the spec gives it as H = 10^-pH. *)
Definition ch (pH : pyfloat) : pyfloat :=
  (p <- pH ;; Ok (Rpower 10 (- p)))%result.

Definition Ks_map {A B : Type} (f : A -> B) (Ks : Ks_t A) : Ks_t B :=
  mkKs (f (K1 Ks)) (f (K2 Ks)) (f (KB Ks)) (f (KW Ks)).

(** Real constants read as a bundle of floats. *)
Definition float_Ks (Ks : Ks_t R) : Ks_t pyfloat := Ks_map Ok Ks.

(** ** numpy arrays with broadcasting *)

(** A 0-d array (a scalar) or a 1-d array. *)
Inductive ndarray (A : Type) : Type :=
| Scalar (x : A)
| Array (xs : list A).

Arguments Scalar {A} x.
Arguments Array {A} xs.

Definition np_size {A : Type} (a : ndarray A) : nat :=
  match a with
  | Scalar _ => 1
  | Array xs => length xs
  end.

Fixpoint map_result {A B : Type} (f : A -> result B) (xs : list A)
  : result (list B) :=
  match xs with
  | [] => Ok []
  | x :: xs' => (y <- f x ;; ys <- map_result f xs' ;; Ok (y :: ys))%result
  end.

Fixpoint zip_result {A B C : Type} (f : A -> B -> result C)
  (xs : list A) (ys : list B) : result (list C) :=
  match xs, ys with
  | x :: xs', y :: ys' =>
      (z <- f x y ;; zs <- zip_result f xs' ys' ;; Ok (z :: zs))%result
  | _, _ => Ok []
  end.

(** An elementwise binary operator: equal lengths pair up, a scalar or a
    one-element array is stretched, anything else cannot be broadcast. *)
Definition broadcast (f : R -> R -> result R) (a b : ndarray R)
  : result (ndarray R) :=
  match a, b with
  | Scalar x, Scalar y => (z <- f x y ;; Ok (Scalar z))%result
  | Scalar x, Array ys => (zs <- map_result (f x) ys ;; Ok (Array zs))%result
  | Array xs, Scalar y =>
      (zs <- map_result (fun x => f x y) xs ;; Ok (Array zs))%result
  | Array xs, Array ys =>
      if Nat.eqb (length xs) (length ys)
      then (zs <- zip_result f xs ys ;; Ok (Array zs))%result
      else
        match xs, ys with
        | [x], _ => (zs <- map_result (f x) ys ;; Ok (Array zs))%result
        | _, [y] =>
            (zs <- map_result (fun x => f x y) xs ;; Ok (Array zs))%result
        | _, _ => Err ValueError
        end
  end.

Definition array_pow (a : ndarray R) (n : nat) : ndarray R :=
  match a with
  | Scalar x => Scalar (x ^ n)%R
  | Array xs => Array (map (fun x => x ^ n)%R xs)
  end.

Definition pyarray : Type := result (ndarray R).

(** The exact reals have no non-finite entries: a zero divisor anywhere in an
    array is reported as the division error. *)
#[export] Instance Num_pyarray : Num pyarray := {
  lit z := Ok (Scalar (IZR z));
  add := lift2 (broadcast (fun x y => Ok (x + y)%R));
  sub := lift2 (broadcast (fun x y => Ok (x - y)%R));
  mul := lift2 (broadcast (fun x y => Ok (x * y)%R));
  div := lift2 (broadcast fdiv);
  pow x n := (a <- x ;; Ok (array_pow a n))%result
}.

(** ** Numbers with an uncertainty *)

(** Modelled from the spec: the number type of the external [uncertainties]
    package ("nominal value + error magnitude", with "standard first-order
    error propagation rules").  A number is its nominal value with a
    first-order coefficient [err u s] on every independent error source [s]
    (sources are numbered); a measured input with standard deviation sigma
    has the coefficient sigma on a source of its own and 0 elsewhere. *)
Record ufloat : Type := mkU {
  nominal_value : R;
  err : nat -> R
}.

(** Independent sources add in quadrature: the standard deviation over the
    sources 0 .. n-1. *)
Definition std_dev (n : nat) (u : ufloat) : R :=
  sqrt (fold_right Rplus 0%R (map (fun s => (err u s) ^ 2)%R (seq 0 n))).

Definition pyufloat : Type := result ufloat.

Definition udiv (x y : ufloat) : result ufloat :=
  if Req_dec_T (nominal_value y) 0 then Err ZeroDivisionError
  else Ok (mkU (nominal_value x / nominal_value y)
               (fun s => (err x s * nominal_value y -
                          nominal_value x * err y s) /
                         (nominal_value y) ^ 2))%R.

Definition upow (x : ufloat) (n : nat) : ufloat :=
  mkU (nominal_value x ^ n)
      (fun s => INR n * nominal_value x ^ (n - 1) * err x s)%R.

(** Modelled from the spec: first-order propagation through the operators
    [+], [-], [*], [/] and [**], source by source; the nominal values follow
    float arithmetic. *)
#[export] Instance Num_pyufloat : Num pyufloat := {
  lit z := Ok (mkU (IZR z) (fun _ => 0%R));
  add := lift2 (fun x y =>
    Ok (mkU (nominal_value x + nominal_value y)
            (fun s => err x s + err y s))%R);
  sub := lift2 (fun x y =>
    Ok (mkU (nominal_value x - nominal_value y)
            (fun s => err x s - err y s))%R);
  mul := lift2 (fun x y =>
    Ok (mkU (nominal_value x * nominal_value y)
            (fun s => err x s * nominal_value y +
                      nominal_value x * err y s))%R);
  div := lift2 udiv;
  pow x n := (a <- x ;; Ok (upow a n))%result
}.

(** An input element: a plain float, or a float with an uncertainty. *)
Inductive number : Type :=
| Float (x : R)
| UFloat (u : ufloat).

(** A species input of a solver: a scalar or an array of such elements. *)
Definition item : Type := ndarray number.

(** ** Helper functions *)

(** [max([np.size(i) for i in it])]; [max] of an empty list raises. *)
Definition lens (it : list item) : result nat :=
  match map np_size it with
  | [] => Err ValueError
  | n :: ns => Ok (fold_left Nat.max ns n)
  end.

Definition nominal (x : number) : R :=
  match x with
  | Float r => r
  | UFloat u => nominal_value u
  end.

(** [unp.nominal_values], shape preserved. *)
Definition nominal_values (i : item) : ndarray R :=
  match i with
  | Scalar x => Scalar (nominal x)
  | Array xs => Array (map nominal xs)
  end.

Definition noms (it : list item) : list (ndarray R) :=
  map nominal_values it.

(** ** The implicit solvers and their calls of the root finder *)

(** The positional [args] tuple: the species arrays, then the bundle. *)
Definition fsolve_args : Type := (list (ndarray R) * Ks_t (ndarray R))%type.

(** One call [opt.fsolve(func, x0, args=..., xtol=...)]. *)
Record fsolve_call : Type := Fsolve {
  func : ndarray R -> fsolve_args -> pyarray;
  x0 : list R;
  args : fsolve_args;
  xtol : R
}.

(** The root finder evaluates [func(x, *args)]: the tuple is unpacked into
    the positional parameters of the residual closure. *)
Definition call2 (zero : pyarray -> pyarray -> pyarray -> Ks_t pyarray -> pyarray)
  (h : ndarray R) (a : fsolve_args) : pyarray :=
  match fst a with
  | [A; B] => zero (Ok h) (Ok A) (Ok B) (Ks_map Ok (snd a))
  | _ => Err TypeError
  end.

Definition call3
  (zero : pyarray -> pyarray -> pyarray -> pyarray -> Ks_t pyarray -> pyarray)
  (h : ndarray R) (a : fsolve_args) : pyarray :=
  match fst a with
  | [A; B; C] => zero (Ok h) (Ok A) (Ok B) (Ok C) (Ks_map Ok (snd a))
  | _ => Err TypeError
  end.

Section ImplicitSolvers.
Local Open Scope result_scope.
Local Open Scope R_scope.

(** [scipy.optimize.fsolve], external. *)
Variable fsolve : fsolve_call -> pyarray.

Definition CO2_HCO3 (CO2 HCO3 : item) (Ks : Ks_t (ndarray R)) : pyarray :=
  L <- lens [CO2; HCO3] ;;
  match noms [CO2; HCO3] with
  | [CO2; HCO3] =>
      fsolve (Fsolve (call2 zero_CO2_HCO3) (repeat 1 L) ([CO2; HCO3], Ks) 1e-12)
  | _ => Err ValueError
  end.

Definition CO2_CO3 (CO2 CO3 : item) (Ks : Ks_t (ndarray R)) : pyarray :=
  L <- lens [CO2; CO3] ;;
  match noms [CO2; CO3] with
  | [CO2; CO3] =>
      fsolve (Fsolve (call2 zero_CO2_CO3) (repeat 1 L) ([CO2; CO3], Ks) 1e-12)
  | _ => Err ValueError
  end.

Definition CO2_TA (CO2 TA BT : item) (Ks : Ks_t (ndarray R)) : pyarray :=
  L <- lens [CO2; TA; BT] ;;
  match noms [CO2; TA; BT] with
  | [CO2; TA; BT] =>
      fsolve (Fsolve (call3 zero_CO2_TA) (repeat 1 L) ([CO2; TA; BT], Ks) 1e-12)
  | _ => Err ValueError
  end.

Definition CO2_DIC (CO2 DIC : item) (Ks : Ks_t (ndarray R)) : pyarray :=
  L <- lens [CO2; DIC] ;;
  match noms [CO2; DIC] with
  | [CO2; DIC] =>
      fsolve (Fsolve (call2 zero_CO2_DIC) (repeat 1 L) ([CO2; DIC], Ks) 1e-12)
  | _ => Err ValueError
  end.

Definition HCO3_CO3 (HCO3 CO3 : item) (Ks : Ks_t (ndarray R)) : pyarray :=
  L <- lens [HCO3; CO3] ;;
  match noms [HCO3; CO3] with
  | [HCO3; CO3] =>
      fsolve (Fsolve (call2 zero_HCO3_CO3) (repeat 1 L) ([HCO3; CO3], Ks) 1e-12)
  | _ => Err ValueError
  end.

Definition HCO3_TA (HCO3 TA BT : item) (Ks : Ks_t (ndarray R)) : pyarray :=
  L <- lens [HCO3; TA; BT] ;;
  match noms [HCO3; TA; BT] with
  | [HCO3; TA; BT] =>
      fsolve (Fsolve (call3 zero_HCO3_TA) (repeat 1 L) ([HCO3; TA; BT], Ks) 1e-12)
  | _ => Err ValueError
  end.

Definition HCO3_DIC (HCO3 DIC : item) (Ks : Ks_t (ndarray R)) : pyarray :=
  L <- lens [HCO3; DIC] ;;
  match noms [HCO3; DIC] with
  | [HCO3; DIC] =>
      fsolve (Fsolve (call2 zero_HCO3_DIC) (repeat 0 L) ([HCO3; DIC], Ks) 1e-12)
  | _ => Err ValueError
  end.

Definition CO3_TA (CO3 TA BT : item) (Ks : Ks_t (ndarray R)) : pyarray :=
  L <- lens [CO3; TA; BT] ;;
  match noms [CO3; TA; BT] with
  | [CO3; TA; BT] =>
      fsolve (Fsolve (call3 zero_CO3_TA) (repeat 1 L) ([CO3; TA; BT], Ks) 1e-12)
  | _ => Err ValueError
  end.

Definition CO3_DIC (CO3 DIC : item) (Ks : Ks_t (ndarray R)) : pyarray :=
  L <- lens [CO3; DIC] ;;
  match noms [CO3; DIC] with
  | [CO3; DIC] =>
      fsolve (Fsolve (call2 zero_CO3_DIC) (repeat 1 L) ([CO3; DIC], Ks) 1e-12)
  | _ => Err ValueError
  end.

Definition TA_DIC (TA DIC BT : item) (Ks : Ks_t (ndarray R)) : pyarray :=
  L <- lens [TA; DIC; BT] ;;
  match noms [TA; DIC; BT] with
  | [TA; DIC; BT] =>
      fsolve (Fsolve (call3 zero_TA_DIC) (repeat 1 L) ([TA; DIC; BT], Ks) 1e-12)
  | _ => Err ValueError
  end.

End ImplicitSolvers.

(** ** Reading the formulas over polynomials *)

(** [guard ds v]: the division error if one of the divisors [ds] is zero,
    the value [v] otherwise. *)
Fixpoint guard (ds : list R) (v : R) : pyfloat :=
  match ds with
  | [] => Ok v
  | d :: ds' => if Req_dec_T d 0 then Err ZeroDivisionError else guard ds' v
  end.

(** Polynomials in the unknown h, as coefficient lists, lowest degree first. *)
Definition poly : Type := list R.

Fixpoint peval (p : poly) (h : R) : R :=
  match p with
  | [] => 0
  | c :: q => c + h * peval q h
  end%R.

Fixpoint padd (p q : poly) : poly :=
  match p, q with
  | [], _ => q
  | _, [] => p
  | a :: p', b :: q' => (a + b)%R :: padd p' q'
  end.

Definition pscale (c : R) (p : poly) : poly := map (Rmult c) p.

Definition psub (p q : poly) : poly := padd p (pscale (-1) q).

Fixpoint pmul (p q : poly) : poly :=
  match p with
  | [] => []
  | a :: p' => padd (pscale a q) (0%R :: pmul p' q)
  end.

Fixpoint ppow (p : poly) (n : nat) : poly :=
  match n with
  | O => [1%R]
  | S n' => pmul p (ppow p n')
  end.

(** Division stays inside the polynomials only for a constant divisor. *)
Definition pdiv (p q : poly) : result poly :=
  match q with
  | [c] => if Req_dec_T c 0 then Err ZeroDivisionError
           else Ok (pscale (/ c) p)
  | _ => Err TypeError
  end.

Definition pypoly : Type := result poly.

#[export] Instance Num_pypoly : Num pypoly := {
  lit z := Ok [IZR z];
  add := lift2 (fun p q => Ok (padd p q));
  sub := lift2 (fun p q => Ok (psub p q));
  mul := lift2 (fun p q => Ok (pmul p q));
  div := lift2 pdiv;
  pow x n := (p <- x ;; Ok (ppow p n))%result
}.

(** The unknown h itself, and a constant. *)
Definition indeterminate : pypoly := Ok [0; 1]%R.
Definition constant (c : R) : pypoly := Ok [c].

(** ** The formulas in the words of the spec *)

Section SpecFormulas.
Local Open Scope R_scope.

(** [pH_TA]: CO2 = (TA - KB.BT/(KB+H) - KW/H + H) / (K1/H + 2.K1.K2/H^2) *)
Definition spec_pH_TA (H TA BT : R) (Ks : Ks_t R) : R :=
  (TA - KB Ks * BT / (KB Ks + H) - KW Ks / H + H) /
  (K1 Ks / H + 2 * K1 Ks * K2 Ks / H ^ 2).

(** Residual 6, HCO3 and TA, left-hand side minus right-hand side. *)
Definition spec_HCO3_TA (h HCO3 TA BT : R) (Ks : Ks_t R) : R :=
  TA * (KB Ks + h) * (h ^ 3 + K1 Ks * h ^ 2 + K1 Ks * K2 Ks * h) -
  (HCO3 * (h + h ^ 2 / K1 Ks + K2 Ks) *
     ((KB Ks + 2 * K2 Ks) * K1 Ks * h + 2 * KB Ks * K1 Ks * K2 Ks +
      K1 Ks * h ^ 2) +
   (h ^ 2 + K1 Ks * h + K1 Ks * K2 Ks) *
     (KB Ks * BT * h + KW Ks * KB Ks + KW Ks * h - KB Ks * h ^ 2 - h ^ 3)).

End SpecFormulas.

(** A root finder with no iteration budget: it hands back its initial
    guess. *)
Definition fsolve_no_iteration (c : fsolve_call) : pyarray :=
  Ok (Array (x0 c)).

(** A root finder leaves an initial guess alone at which the residual
    already vanishes. *)
Definition keeps_exact_guess (fsolve : fsolve_call -> pyarray) : Prop :=
  forall c : fsolve_call,
    func c (Array (x0 c)) (args c) = Ok (Array (repeat 0%R (length (x0 c)))) ->
    fsolve c = Ok (Array (x0 c)).

(** A float function of h that never raises and whose value is that of one
    polynomial at every h. *)
Definition polynomial_in_h (F : pyfloat -> pyfloat) : Prop :=
  exists p : poly, forall h : R, F (Ok h) = Ok (peval p h).

(** At a given h, a symbolic evaluation and a float evaluation agree. *)
Definition agree (h : R) (P : pypoly) (x : pyfloat) : Prop :=
  exists p : poly, P = Ok p /\ x = Ok (peval p h).

(** The bundle with every constant 1, as reals and as 0-d arrays. *)
Definition unit_Ks : Ks_t R := mkKs 1%R 1%R 1%R 1%R.
Definition unit_Ks_arrays : Ks_t (ndarray R) := Ks_map Scalar unit_Ks.

(** Modelled from the spec: the pH converter H = 10^-pH on uncertain
    numbers, with the first-order error of the power. *)
Definition ch_ufloat (pH : pyufloat) : pyufloat :=
  (p <- pH ;;
   Ok (mkU (Rpower 10 (- nominal_value p))
           (fun s => - ln 10 * Rpower 10 (- nominal_value p) * err p s)%R))
  %result.

(** The factors of the speciation: DIC over CO2, over HCO3, over CO3, and
    carbonate alkalinity over CO2. *)
Section Factors.
Local Open Scope R_scope.

Definition ratio_CO2 (H : R) (Ks : Ks_t R) : R :=
  1 + K1 Ks / H + K1 Ks * K2 Ks / H ^ 2.

Definition ratio_HCO3 (H : R) (Ks : Ks_t R) : R :=
  1 + H / K1 Ks + K2 Ks / H.

Definition ratio_CO3 (H : R) (Ks : Ks_t R) : R :=
  1 + H / K2 Ks + H ^ 2 / (K1 Ks * K2 Ks).

Definition ratio_alk (H : R) (Ks : Ks_t R) : R :=
  K1 Ks / H + 2 * K1 Ks * K2 Ks / H ^ 2.

End Factors.

(** ** Arrays, entry by entry *)

(** An array that broadcasts against vectors of length [L]. *)
Definition fits (L : nat) (a : ndarray R) : Prop :=
  match a with
  | Scalar _ => True
  | Array xs => length xs = L
  end.

(** The entry an array contributes at index [i]. *)
Definition entry (a : ndarray R) (i : nat) : R :=
  match a with
  | Scalar x => x
  | Array xs => nth i xs 0%R
  end.

Definition is_1d (a : ndarray R) : bool :=
  match a with
  | Scalar _ => false
  | Array _ => true
  end.

(** The bundle of constants seen at index [i]. *)
Definition Ks_at (Ks : Ks_t (ndarray R)) (i : nat) : Ks_t R :=
  Ks_map (fun a => entry a i) Ks.

(** The array expression [A] evaluates to an array of the right shape
    ([k]: it is 1-d) whose entry at [i] is the value of the float
    expression [x]. *)
Definition holds_at (L i : nat) (k : bool) (A : pyarray) (x : pyfloat) : Prop :=
  exists a : ndarray R,
    A = Ok a /\ fits L a /\ is_1d a = k /\ x = Ok (entry a i).

(** Constants that broadcast, with no zero among K1 and K2. *)
Definition usable_Ks (L : nat) (Ks : Ks_t (ndarray R)) : Prop :=
  fits L (K1 Ks) /\ fits L (K2 Ks) /\ fits L (KB Ks) /\ fits L (KW Ks) /\
  (forall j, j < L -> entry (K1 Ks) j <> 0%R) /\
  (forall j, j < L -> entry (K2 Ks) j <> 0%R).

(** Evaluated on a vector of unknowns, a residual closure returns a vector
    of the same length whose entries are the residuals of the entries. *)
Definition elementwise2
  (za : pyarray -> pyarray -> pyarray -> Ks_t pyarray -> pyarray)
  (zf : pyfloat -> pyfloat -> pyfloat -> Ks_t pyfloat -> pyfloat) : Prop :=
  forall (hs : list R) (A B : ndarray R) (Ks : Ks_t (ndarray R)),
    0 < length hs ->
    fits (length hs) A -> fits (length hs) B -> usable_Ks (length hs) Ks ->
    exists rs : list R,
      call2 za (Array hs) ([A; B], Ks) = Ok (Array rs) /\
      length rs = length hs /\
      forall i, i < length hs ->
        zf (Ok (nth i hs 0%R)) (Ok (entry A i)) (Ok (entry B i))
           (float_Ks (Ks_at Ks i)) = Ok (nth i rs 0%R).

Definition elementwise3
  (za : pyarray -> pyarray -> pyarray -> pyarray -> Ks_t pyarray -> pyarray)
  (zf : pyfloat -> pyfloat -> pyfloat -> pyfloat -> Ks_t pyfloat -> pyfloat)
  : Prop :=
  forall (hs : list R) (A B C : ndarray R) (Ks : Ks_t (ndarray R)),
    0 < length hs ->
    fits (length hs) A -> fits (length hs) B -> fits (length hs) C ->
    usable_Ks (length hs) Ks ->
    exists rs : list R,
      call3 za (Array hs) ([A; B; C], Ks) = Ok (Array rs) /\
      length rs = length hs /\
      forall i, i < length hs ->
        zf (Ok (nth i hs 0%R)) (Ok (entry A i)) (Ok (entry B i))
           (Ok (entry C i)) (float_Ks (Ks_at Ks i)) = Ok (nth i rs 0%R).

(** An array of plain floats as an input. *)
Definition plain (a : ndarray R) : item :=
  match a with
  | Scalar x => Scalar (Float x)
  | Array xs => Array (map Float xs)
  end.

(** An input that broadcasts against vectors of length [L]. *)
Definition item_fits (L : nat) (a : item) : Prop :=
  match a with
  | Scalar _ => True
  | Array xs => length xs = L
  end.

(** A call whose residual, evaluated at the initial guess, returns a vector
    as long as the guess: the shapes the root finder needs. *)
Definition well_shaped (c : fsolve_call) : Prop :=
  exists rs : list R,
    func c (Array (x0 c)) (args c) = Ok (Array rs) /\
    length rs = length (x0 c).

Definition well_shaped2 (fsolve : fsolve_call -> pyarray)
  (solver : item -> item -> Ks_t (ndarray R) -> pyarray) : Prop :=
  forall (L : nat) (A B : item) (Ks : Ks_t (ndarray R)),
    lens [A; B] = Ok L -> 0 < L ->
    item_fits L A -> item_fits L B -> usable_Ks L Ks ->
    exists c : fsolve_call,
      solver A B Ks = fsolve c /\ length (x0 c) = L /\ well_shaped c.

Definition well_shaped3 (fsolve : fsolve_call -> pyarray)
  (solver : item -> item -> item -> Ks_t (ndarray R) -> pyarray) : Prop :=
  forall (L : nat) (A B C : item) (Ks : Ks_t (ndarray R)),
    lens [A; B; C] = Ok L -> 0 < L ->
    item_fits L A -> item_fits L B -> item_fits L C -> usable_Ks L Ks ->
    exists c : fsolve_call,
      solver A B C Ks = fsolve c /\ length (x0 c) = L /\ well_shaped c.

(** ** Reading the formulas over the reals *)

(** Plain real arithmetic: the value of a formula where no divisor is
    zero. *)
#[export] Instance Num_R : Num R := {
  lit := IZR;
  add := Rplus;
  sub := Rminus;
  mul := Rmult;
  div := Rdiv;
  pow x n := (x ^ n)%R
}.

(** Modelled from the spec: the pH converter [ch] on reals, H = 10^-pH. *)
Definition ch_R (pH : R) : R := Rpower 10 (- pH).

(** The value of an uncertain number when its error source [s] is
    displaced by [t]. *)
Definition shift (s : nat) (t : R) (u : ufloat) : R :=
  (nominal_value u + t * err u s)%R.

(** First-order propagation on the source [s]: [U] is a number whose
    nominal value is that of the real formula [f] at no displacement and
    whose coefficient on [s] is the derivative of [f] there, [f t] being
    the formula with every input displaced by [t] times its own
    coefficient on [s]. *)
Definition propagates (s : nat) (U : pyufloat) (f : R -> R) : Prop :=
  exists u : ufloat,
    U = Ok u /\ nominal_value u = f 0%R /\
    derivable_pt_lim f 0 (err u s).


(** ** What stripping an input means *)

(** The nominal value of an element, stated on its own. *)
Inductive strips_to : number -> R -> Prop :=
| strips_float (x : R) : strips_to (Float x) x
| strips_ufloat (n : R) (e : nat -> R) : strips_to (UFloat (mkU n e)) n.

(** An input and the array of its nominal values, of the same shape. *)
Inductive stripped : item -> ndarray R -> Prop :=
| stripped_scalar (x : number) (r : R) :
    strips_to x r -> stripped (Scalar x) (Scalar r)
| stripped_array (xs : list number) (rs : list R) :
    Forall2 strips_to xs rs -> stripped (Array xs) (Array rs).

(** A solver of two, of three, species inputs hands the arrays of their
    nominal values to the root finder, and so returns what it returns on
    those arrays given as plain inputs. *)
Definition hands_over2 (fsolve : fsolve_call -> pyarray)
  (solver : item -> item -> Ks_t (ndarray R) -> pyarray) : Prop :=
  forall (a b : item) (a0 b0 : ndarray R) (Ks : Ks_t (ndarray R)),
    stripped a a0 -> stripped b b0 ->
    (exists c : fsolve_call,
       solver a b Ks = fsolve c /\ args c = ([a0; b0], Ks)) /\
    solver a b Ks = solver (plain a0) (plain b0) Ks.

Definition hands_over3 (fsolve : fsolve_call -> pyarray)
  (solver : item -> item -> item -> Ks_t (ndarray R) -> pyarray) : Prop :=
  forall (a b c : item) (a0 b0 c0 : ndarray R) (Ks : Ks_t (ndarray R)),
    stripped a a0 -> stripped b b0 -> stripped c c0 ->
    (exists d : fsolve_call,
       solver a b c Ks = fsolve d /\ args d = ([a0; b0; c0], Ks)) /\
    solver a b c Ks = solver (plain a0) (plain b0) (plain c0) Ks.


(** ** The roots of the equation of [CO3_DIC] *)




(** * Properties *)

(** ** Evaluation of float expressions *)

Section FloatEvaluation.
Local Open Scope R_scope.

Lemma lit_ok (z : Z) : lit z = Ok (IZR z) :> pyfloat.
Proof. reflexivity. Qed.

Lemma add_ok (x y : R) : (Ok x + Ok y)%py = Ok (x + y).
Proof. reflexivity. Qed.

Lemma sub_ok (x y : R) : (Ok x - Ok y)%py = Ok (x - y).
Proof. reflexivity. Qed.

Lemma mul_ok (x y : R) : (Ok x * Ok y)%py = Ok (x * y).
Proof. reflexivity. Qed.

Lemma pow_ok (x : R) (n : nat) : (Ok x ** n)%py = Ok (x ^ n).
Proof. reflexivity. Qed.

Lemma div_ok (x y : R) : y <> 0 -> (Ok x / Ok y)%py = Ok (x / y).
Proof.
  intros Hy. cbn. unfold fdiv.
  destruct (Req_dec_T y 0) as [E | _]; [contradiction | reflexivity].
Qed.

Lemma div_zero (x y : R) :
  y = 0 -> (Ok x / Ok y)%py = Err ZeroDivisionError.
Proof.
  intros Hy. cbn. unfold fdiv.
  destruct (Req_dec_T y 0) as [_ | N]; [reflexivity | contradiction].
Qed.

Lemma ch_ok (p : R) : ch (Ok p) = Ok (Rpower 10 (- p)).
Proof. reflexivity. Qed.

Lemma ch_pos (p : R) : 0 < Rpower 10 (- p).
Proof. unfold Rpower. apply exp_pos. Qed.

(** The three denominators of the speciation are positive for physical
    inputs. *)
Lemma den_CO2_pos (H k1 k2 : R) :
  0 < H -> 0 < k1 -> 0 < k2 -> 0 < 1 + k1 / H + k1 * k2 / H ^ 2.
Proof.
  intros HH H1 H2.
  assert (0 < k1 / H) by (apply Rdiv_lt_0_compat; lra).
  assert (0 < k1 * k2 / H ^ 2) by (apply Rdiv_lt_0_compat; nra).
  lra.
Qed.

Lemma den_HCO3_pos (H k1 k2 : R) :
  0 < H -> 0 < k1 -> 0 < k2 -> 0 < 1 + H / k1 + k2 / H.
Proof.
  intros HH H1 H2.
  assert (0 < H / k1) by (apply Rdiv_lt_0_compat; lra).
  assert (0 < k2 / H) by (apply Rdiv_lt_0_compat; lra).
  lra.
Qed.

Lemma den_CO3_pos (H k1 k2 : R) :
  0 < H -> 0 < k1 -> 0 < k2 -> 0 < 1 + H / k2 + H ^ 2 / (k1 * k2).
Proof.
  intros HH H1 H2.
  assert (0 < H / k2) by (apply Rdiv_lt_0_compat; lra).
  assert (0 < H ^ 2 / (k1 * k2)) by (apply Rdiv_lt_0_compat; nra).
  lra.
Qed.

Lemma pow_nonzero' (x : R) (n : nat) : x <> 0 -> x ^ n <> 0.
Proof. intros Hx. apply pow_nonzero, Hx. Qed.

Lemma mult_nonzero (x y : R) : x <> 0 -> y <> 0 -> x * y <> 0.
Proof. intros Hx Hy. apply Rmult_integral_contrapositive_currified; assumption. Qed.

End FloatEvaluation.

(** One step of evaluation; [nz] discharges "the divisor is not zero". *)
Ltac py_step nz :=
  first
    [ rewrite lit_ok | rewrite add_ok | rewrite sub_ok | rewrite mul_ok
    | rewrite pow_ok | rewrite ch_ok | rewrite div_ok by nz ].

Ltac py_eval nz :=
  cbn [float_Ks Ks_map K1 K2 KB KW]; repeat py_step nz.

Ltac nz_pos :=
  solve
    [ assumption
    | apply pow_nonzero'; assumption
    | apply mult_nonzero; assumption
    | apply Rgt_not_eq; assumption
    | apply Rgt_not_eq, Rlt_gt;
      first [ apply den_CO2_pos | apply den_HCO3_pos | apply den_CO3_pos ];
      assumption
    | apply Rgt_not_eq; nra ].

(** ** Direct-formula solvers and converters *)

Section DirectFormulas.
Local Open Scope R_scope.

Lemma pH_TA_value (pH TA BT : R) (Ks : Ks_t R) :
  let H := Rpower 10 (- pH) in
  pH_TA ch (Ok pH) (Ok TA) (Ok BT) (float_Ks Ks) =
  guard [KB Ks + H; K1 Ks / H + 2 * K1 Ks * K2 Ks / H ^ 2]
        (spec_pH_TA H TA BT Ks).
Proof.
  intros H. pose proof (ch_pos pH) as HH. fold H in HH.
  unfold pH_TA, spec_pH_TA, guard.
  cbn [float_Ks Ks_map K1 K2 KB KW]. rewrite ch_ok. fold H.
  destruct (Req_dec_T (KB Ks + H) 0) as [E | N].
  - rewrite mul_ok, add_ok, (div_zero _ E). reflexivity.
  - py_eval nz_pos.
    destruct (Req_dec_T (K1 Ks / H + 2 * K1 Ks * K2 Ks / H ^ 2) 0) as [E | N'].
    + rewrite (div_zero _ E). reflexivity.
    + rewrite div_ok by assumption. reflexivity.
Qed.

(** C1. [pH_TA] returns the closed form of the spec at H = 10^-pH, the
    value handed back by the pH converter: the division error where a
    divisor of that form is zero, its value otherwise.  Nothing else is
    computed. *)
Theorem pH_TA_closed_form (pH TA BT : R) (Ks : Ks_t R) :
  let H := Rpower 10 (- pH) in
  pH_TA ch (Ok pH) (Ok TA) (Ok BT) (float_Ks Ks) =
  guard [KB Ks + H; K1 Ks / H + 2 * K1 Ks * K2 Ks / H ^ 2]
        (spec_pH_TA H TA BT Ks).
Proof. exact (pH_TA_value pH TA BT Ks). Qed.

(** C2. For H > 0, K1 > 0 and K2 > 0 the three converters conserve carbon:
    cCO2 + cHCO3 + cCO3 is DIC, with no error raised on the way. *)
Theorem converters_conserve_carbon (H DIC : R) (Ks : Ks_t R) :
  0 < H -> 0 < K1 Ks -> 0 < K2 Ks ->
  (cCO2 (Ok H) (Ok DIC) (float_Ks Ks) +
   cHCO3 (Ok H) (Ok DIC) (float_Ks Ks) +
   cCO3 (Ok H) (Ok DIC) (float_Ks Ks))%py = Ok DIC.
Proof.
  intros HH H1 H2. unfold cCO2, cHCO3, cCO3.
  py_eval nz_pos. f_equal.
  pose proof (den_CO2_pos HH H1 H2).
  pose proof (den_HCO3_pos HH H1 H2).
  pose proof (den_CO3_pos HH H1 H2).
  field. repeat split; nra.
Qed.

Lemma converters_conserve_carbon_witness :
  0 < 1 /\ 0 < K1 unit_Ks /\ 0 < K2 unit_Ks /\
  (cCO2 (Ok 1%R) (Ok 3%R) (float_Ks unit_Ks) +
   cHCO3 (Ok 1%R) (Ok 3%R) (float_Ks unit_Ks) +
   cCO3 (Ok 1%R) (Ok 3%R) (float_Ks unit_Ks))%py = Ok 3.
Proof.
  assert (P : 0 < 1) by lra.
  repeat apply conj; try exact P.
  exact (@converters_conserve_carbon 1 3 unit_Ks P P P).
Defined.

(** C3. With K1 > 0 and K2 > 0 (H = 10^-pH is positive), the DIC returned
    by [CO2_pH], fed to [pH_DIC] at the same pH, gives back the CO2. *)
Theorem CO2_pH_then_pH_DIC (CO2 pH : R) (Ks : Ks_t R) :
  0 < K1 Ks -> 0 < K2 Ks ->
  pH_DIC ch (Ok pH) (CO2_pH ch (Ok CO2) (Ok pH) (float_Ks Ks)) (float_Ks Ks)
  = Ok CO2.
Proof.
  intros H1 H2. pose proof (ch_pos pH) as HH.
  unfold pH_DIC, CO2_pH.
  py_eval nz_pos. f_equal.
  pose proof (den_CO2_pos HH H1 H2).
  field. split; nra.
Qed.

Lemma CO2_pH_then_pH_DIC_witness :
  0 < K1 unit_Ks /\ 0 < K2 unit_Ks /\
  pH_DIC ch (Ok 8) (CO2_pH ch (Ok 2) (Ok 8) (float_Ks unit_Ks))
    (float_Ks unit_Ks) = Ok 2.
Proof.
  assert (P : 0 < 1) by lra.
  repeat apply conj; try exact P.
  exact (@CO2_pH_then_pH_DIC 2 8 unit_Ks P P).
Defined.

End DirectFormulas.

(** ** The residuals *)

Section Residuals.
Local Open Scope R_scope.

(** C4. With K1 and K2 nonzero, the residual [HCO3_TA] solves is the
    HCO3 and TA equation of the spec, left-hand side minus right-hand
    side, at every h. *)
Theorem zero_HCO3_TA_is_spec_equation (h HCO3 TA BT : R) (Ks : Ks_t R) :
  K1 Ks <> 0 -> K2 Ks <> 0 ->
  zero_HCO3_TA (Ok h) (Ok HCO3) (Ok TA) (Ok BT) (float_Ks Ks) =
  Ok (spec_HCO3_TA h HCO3 TA BT Ks).
Proof.
  intros H1 H2. unfold zero_HCO3_TA, spec_HCO3_TA.
  py_eval nz_pos. reflexivity.
Qed.

Lemma zero_HCO3_TA_is_spec_equation_witness :
  K1 unit_Ks <> 0 /\ K2 unit_Ks <> 0 /\
  zero_HCO3_TA (Ok 1) (Ok 1) (Ok 1) (Ok 1) (float_Ks unit_Ks) =
  Ok (spec_HCO3_TA 1 1 1 1 unit_Ks).
Proof.
  assert (N : (1 : R) <> 0) by lra.
  split; [exact N | split; [exact N |]].
  apply (@zero_HCO3_TA_is_spec_equation 1 1 1 1 unit_Ks); exact N.
Defined.

Lemma zero_CO2_TA_value (h CO2 TA BT : R) (Ks : Ks_t R) :
  zero_CO2_TA (Ok h) (Ok CO2) (Ok TA) (Ok BT) (float_Ks Ks) =
  Ok (TA * h ^ 2 * (KB Ks + h) -
      (CO2 * (KB Ks + h) * (K1 Ks * h + 2 * K1 Ks * K2 Ks) +
       h ^ 2 * KB Ks * BT + (KB Ks + h) * (KW Ks * h - h ^ 3))).
Proof. unfold zero_CO2_TA. py_eval nz_pos. reflexivity. Qed.

Lemma cTA_value (CO2 h BT : R) (Ks : Ks_t R) :
  h <> 0 -> KB Ks + h <> 0 ->
  cTA (Ok CO2) (Ok h) (Ok BT) (float_Ks Ks) =
  Ok (CO2 * (K1 Ks / h + 2 * K1 Ks * K2 Ks / h ^ 2) +
      BT * KB Ks / (KB Ks + h) + KW Ks / h - h).
Proof. intros Hh Hb. unfold cTA. py_eval nz_pos. reflexivity. Qed.

(** C9. For h <> 0 and KB + h <> 0 the residual of [CO2_TA] is
    h^2 (KB + h) (TA - cTA(CO2, h, BT, Ks)); so it is zero exactly when
    [cTA] at that h gives back the TA. *)
Theorem zero_CO2_TA_is_cTA_error (h CO2 TA BT : R) (Ks : Ks_t R) :
  h <> 0 -> KB Ks + h <> 0 ->
  zero_CO2_TA (Ok h) (Ok CO2) (Ok TA) (Ok BT) (float_Ks Ks) =
    (Ok h ** 2 * (Ok (KB Ks) + Ok h) *
     (Ok TA - cTA (Ok CO2) (Ok h) (Ok BT) (float_Ks Ks)))%py /\
  (zero_CO2_TA (Ok h) (Ok CO2) (Ok TA) (Ok BT) (float_Ks Ks) = Ok 0 <->
   cTA (Ok CO2) (Ok h) (Ok BT) (float_Ks Ks) = Ok TA).
Proof.
  intros Hh Hb.
  rewrite zero_CO2_TA_value, (cTA_value _ _ Ks Hh Hb).
  set (t := CO2 * (K1 Ks / h + 2 * K1 Ks * K2 Ks / h ^ 2) +
            BT * KB Ks / (KB Ks + h) + KW Ks / h - h).
  assert (E : TA * h ^ 2 * (KB Ks + h) -
              (CO2 * (KB Ks + h) * (K1 Ks * h + 2 * K1 Ks * K2 Ks) +
               h ^ 2 * KB Ks * BT + (KB Ks + h) * (KW Ks * h - h ^ 3)) =
              h ^ 2 * (KB Ks + h) * (TA - t)).
  { unfold t. field. split; assumption. }
  rewrite E. split.
  - py_eval nz_pos. reflexivity.
  - split; intros Hz; injection Hz as Hz; f_equal.
    + assert (Hp : h ^ 2 * (KB Ks + h) <> 0)
        by (apply mult_nonzero; [apply pow_nonzero'|]; assumption).
      apply Rmult_integral in Hz. destruct Hz as [Hz | Hz]; [contradiction | lra].
    + rewrite Hz. ring.
Qed.

Lemma zero_CO2_TA_is_cTA_error_witness :
  (1 : R) <> 0 /\ KB unit_Ks + 1 <> 0 /\
  zero_CO2_TA (Ok 1) (Ok 1) (Ok 4) (Ok 1) (float_Ks unit_Ks) =
    (Ok 1%R ** 2 * (Ok (KB unit_Ks) + Ok 1%R) *
     (Ok 4%R - cTA (Ok 1%R) (Ok 1%R) (Ok 1%R) (float_Ks unit_Ks)))%py.
Proof.
  assert (N1 : (1 : R) <> 0) by lra.
  assert (N2 : KB unit_Ks + 1 <> 0) by (cbn; lra).
  split; [exact N1 | split; [exact N2 |]].
  exact (proj1 (@zero_CO2_TA_is_cTA_error 1 1 4 1 unit_Ks N1 N2)).
Defined.

End Residuals.

(** ** The residuals are polynomials in h *)

Section Polynomials.
Local Open Scope R_scope.

Lemma peval_padd (p q : poly) (h : R) :
  peval (padd p q) h = peval p h + peval q h.
Proof.
  revert q. induction p as [| a p IH]; intros q; cbn.
  - ring.
  - destruct q as [| b q]; cbn.
    + ring.
    + rewrite IH. ring.
Qed.

Lemma peval_pscale (c : R) (p : poly) (h : R) :
  peval (pscale c p) h = c * peval p h.
Proof.
  induction p as [| a p IH]; cbn.
  - ring.
  - unfold pscale in IH. rewrite IH. ring.
Qed.

Lemma peval_psub (p q : poly) (h : R) :
  peval (psub p q) h = peval p h - peval q h.
Proof. unfold psub. rewrite peval_padd, peval_pscale. ring. Qed.

Lemma peval_pmul (p q : poly) (h : R) :
  peval (pmul p q) h = peval p h * peval q h.
Proof.
  induction p as [| a p IH]; cbn.
  - ring.
  - rewrite peval_padd, peval_pscale. cbn. rewrite IH. ring.
Qed.

Lemma peval_ppow (p : poly) (n : nat) (h : R) :
  peval (ppow p n) h = peval p h ^ n.
Proof.
  induction n as [| n IH]; cbn.
  - ring.
  - rewrite peval_pmul, IH. reflexivity.
Qed.

Variable h : R.

Lemma agree_indeterminate : agree h indeterminate (Ok h).
Proof. exists [0; 1]. split; [reflexivity | cbn; f_equal; ring]. Qed.

Lemma agree_constant (c : R) : agree h (constant c) (Ok c).
Proof. exists [c]. split; [reflexivity | cbn; f_equal; ring]. Qed.

Lemma agree_lit (z : Z) : agree h (lit z) (lit z).
Proof. exists [IZR z]. split; [reflexivity | cbn; f_equal; ring]. Qed.

Lemma agree_add (P Q : pypoly) (x y : pyfloat) :
  agree h P x -> agree h Q y -> agree h (P + Q)%py (x + y)%py.
Proof.
  intros [p [-> ->]] [q [-> ->]]. exists (padd p q).
  split; [reflexivity | rewrite peval_padd; reflexivity].
Qed.

Lemma agree_sub (P Q : pypoly) (x y : pyfloat) :
  agree h P x -> agree h Q y -> agree h (P - Q)%py (x - y)%py.
Proof.
  intros [p [-> ->]] [q [-> ->]]. exists (psub p q).
  split; [reflexivity | rewrite peval_psub; reflexivity].
Qed.

Lemma agree_mul (P Q : pypoly) (x y : pyfloat) :
  agree h P x -> agree h Q y -> agree h (P * Q)%py (x * y)%py.
Proof.
  intros [p [-> ->]] [q [-> ->]]. exists (pmul p q).
  split; [reflexivity | rewrite peval_pmul; reflexivity].
Qed.

Lemma agree_pow (P : pypoly) (x : pyfloat) (n : nat) :
  agree h P x -> agree h (P ** n)%py (x ** n)%py.
Proof.
  intros [p [-> ->]]. exists (ppow p n).
  split; [reflexivity | rewrite peval_ppow; reflexivity].
Qed.

(** Division by a nonzero constant. *)
Lemma agree_div (P : pypoly) (x : pyfloat) (c : R) :
  agree h P x -> c <> 0 -> agree h (P / constant c)%py (x / Ok c)%py.
Proof.
  intros [p [-> ->]] Hc. exists (pscale (/ c) p). split.
  - cbn. destruct (Req_dec_T c 0); [contradiction | reflexivity].
  - rewrite div_ok by assumption. rewrite peval_pscale.
    f_equal. field. assumption.
Qed.

(** Division by the product of two nonzero constants. *)
Lemma agree_div_product (P : pypoly) (x : pyfloat) (c d : R) :
  agree h P x -> c <> 0 -> d <> 0 ->
  agree h (P / (constant c * constant d))%py (x / (Ok c * Ok d))%py.
Proof.
  intros [p [-> ->]] Hc Hd.
  assert (Hcd : c * d + 0 <> 0).
  { rewrite Rplus_0_r. apply mult_nonzero; assumption. }
  exists (pscale (/ (c * d + 0)) p). split.
  - cbn. destruct (Req_dec_T (c * d + 0) 0); [contradiction | reflexivity].
  - rewrite mul_ok, div_ok by (apply mult_nonzero; assumption).
    rewrite peval_pscale. f_equal. field. split; assumption.
Qed.

End Polynomials.

(** A formula that agrees with its symbolic evaluation at every h is a
    polynomial in h. *)
Lemma agree_polynomial (P : pypoly) (F : pyfloat -> pyfloat) :
  (forall h : R, agree h P (F (Ok h))) -> polynomial_in_h F.
Proof.
  intros HF. destruct (HF 0%R) as [p [Ep _]]. exists p. intros h.
  destruct (HF h) as [q [Eq Hq]]. rewrite Ep in Eq.
  injection Eq as <-. exact Hq.
Qed.

Ltac agree_step :=
  first
    [ apply agree_indeterminate | apply agree_constant | apply agree_lit
    | apply agree_add | apply agree_sub | apply agree_mul | apply agree_pow
    | apply agree_div_product; [ | assumption | assumption ]
    | apply agree_div; [ | assumption ] ].

(** Evaluate the residual [zero] symbolically, at the unknown [X]. *)
Ltac residual_polynomial zero X :=
  apply (@agree_polynomial X);
  intros h; unfold zero, float_Ks; cbn [Ks_map K1 K2 KB KW];
  repeat agree_step.

Section ResidualsTotal.
Local Open Scope R_scope.
Variable Ks : Ks_t R.
Hypothesis K1_nonzero : K1 Ks <> 0.
Hypothesis K2_nonzero : K2 Ks <> 0.

Let Kp : Ks_t pypoly := Ks_map constant Ks.

(** C10. With K1 and K2 nonzero, each of the ten residuals is a polynomial
    in h: it divides by K1, K2 or K1 K2 only, never by h, and returns a
    value at every real h, the guesses 0 and 1 included. *)
Theorem residuals_are_polynomials :
  (forall CO2 HCO3 : R, polynomial_in_h (fun h =>
     zero_CO2_HCO3 h (Ok CO2) (Ok HCO3) (float_Ks Ks))) /\
  (forall CO2 CO3 : R, polynomial_in_h (fun h =>
     zero_CO2_CO3 h (Ok CO2) (Ok CO3) (float_Ks Ks))) /\
  (forall CO2 TA BT : R, polynomial_in_h (fun h =>
     zero_CO2_TA h (Ok CO2) (Ok TA) (Ok BT) (float_Ks Ks))) /\
  (forall CO2 DIC : R, polynomial_in_h (fun h =>
     zero_CO2_DIC h (Ok CO2) (Ok DIC) (float_Ks Ks))) /\
  (forall HCO3 CO3 : R, polynomial_in_h (fun h =>
     zero_HCO3_CO3 h (Ok HCO3) (Ok CO3) (float_Ks Ks))) /\
  (forall HCO3 TA BT : R, polynomial_in_h (fun h =>
     zero_HCO3_TA h (Ok HCO3) (Ok TA) (Ok BT) (float_Ks Ks))) /\
  (forall HCO3 DIC : R, polynomial_in_h (fun h =>
     zero_HCO3_DIC h (Ok HCO3) (Ok DIC) (float_Ks Ks))) /\
  (forall CO3 TA BT : R, polynomial_in_h (fun h =>
     zero_CO3_TA h (Ok CO3) (Ok TA) (Ok BT) (float_Ks Ks))) /\
  (forall CO3 DIC : R, polynomial_in_h (fun h =>
     zero_CO3_DIC h (Ok CO3) (Ok DIC) (float_Ks Ks))) /\
  (forall TA DIC BT : R, polynomial_in_h (fun h =>
     zero_TA_DIC h (Ok TA) (Ok DIC) (Ok BT) (float_Ks Ks))).
Proof.
  repeat split; intros.
  - residual_polynomial (@zero_CO2_HCO3)
      (zero_CO2_HCO3 indeterminate (constant CO2) (constant HCO3) Kp).
  - residual_polynomial (@zero_CO2_CO3)
      (zero_CO2_CO3 indeterminate (constant CO2) (constant CO3) Kp).
  - residual_polynomial (@zero_CO2_TA)
      (zero_CO2_TA indeterminate (constant CO2) (constant TA) (constant BT) Kp).
  - residual_polynomial (@zero_CO2_DIC)
      (zero_CO2_DIC indeterminate (constant CO2) (constant DIC) Kp).
  - residual_polynomial (@zero_HCO3_CO3)
      (zero_HCO3_CO3 indeterminate (constant HCO3) (constant CO3) Kp).
  - residual_polynomial (@zero_HCO3_TA)
      (zero_HCO3_TA indeterminate (constant HCO3) (constant TA) (constant BT) Kp).
  - residual_polynomial (@zero_HCO3_DIC)
      (zero_HCO3_DIC indeterminate (constant HCO3) (constant DIC) Kp).
  - residual_polynomial (@zero_CO3_TA)
      (zero_CO3_TA indeterminate (constant CO3) (constant TA) (constant BT) Kp).
  - residual_polynomial (@zero_CO3_DIC)
      (zero_CO3_DIC indeterminate (constant CO3) (constant DIC) Kp).
  - residual_polynomial (@zero_TA_DIC)
      (zero_TA_DIC indeterminate (constant TA) (constant DIC) (constant BT) Kp).
Qed.

End ResidualsTotal.

(** ** The calls of the root finder *)

Section SolverCalls.
Local Open Scope R_scope.
Variable fsolve : fsolve_call -> pyarray.





End SolverCalls.

(** ** A root finder that leaves an exact guess alone *)

Section RootSelection.
Local Open Scope R_scope.

Lemma keeps_exact_guess_no_iteration : keeps_exact_guess fsolve_no_iteration.
Proof. intros c _. reflexivity. Qed.


End RootSelection.

(** ** Inputs outside the physical range *)

Section Domain.
Local Open Scope R_scope.




Variable Ks : Ks_t R.





End Domain.

Section DomainDirect.
Local Open Scope R_scope.
Variable Ks : Ks_t R.
Variable pH : R.

Let H : R := Rpower 10 (- pH).

Let H_pos : 0 < H := ch_pos pH.









End DomainDirect.

Section DomainErrors.
Local Open Scope R_scope.


End DomainErrors.

Section AlkalinityFactor.
Local Open Scope R_scope.

Lemma ratio_alk_pos (H : R) (Ks : Ks_t R) :
  0 < H -> 0 < K1 Ks -> 0 < K2 Ks -> 0 < ratio_alk H Ks.
Proof.
  intros HH H1 H2. unfold ratio_alk.
  assert (0 < K1 Ks / H) by (apply Rdiv_lt_0_compat; lra).
  assert (0 < 2 * K1 Ks * K2 Ks / H ^ 2) by (apply Rdiv_lt_0_compat; nra).
  lra.
Qed.

End AlkalinityFactor.

Section ResidualsWitness.
Local Open Scope R_scope.

Lemma residuals_are_polynomials_witness :
  K1 unit_Ks <> 0 /\ K2 unit_Ks <> 0 /\
  exists v : R,
    zero_HCO3_DIC (Ok 0) (Ok 1) (Ok 1) (float_Ks unit_Ks) = Ok v.
Proof.
  assert (N1 : K1 unit_Ks <> 0) by (cbn; lra).
  assert (N2 : K2 unit_Ks <> 0) by (cbn; lra).
  split; [exact N1 | split; [exact N2 |]].
  destruct (proj1 (proj2 (proj2 (proj2 (proj2 (proj2 (proj2
              (@residuals_are_polynomials unit_Ks N1 N2)))))))
              1 1) as [p Hp].
  exists (peval p 0). exact (Hp 0).
Defined.

End ResidualsWitness.

(** * Further properties of the formulas *)

(** ** Converters and direct solvers undo each other *)

Section RoundTrips.
Local Open Scope R_scope.
Variable Ks : Ks_t R.
Hypothesis K1_pos : 0 < K1 Ks.
Hypothesis K2_pos : 0 < K2 Ks.
Variable pH : R.

Let H : R := Rpower 10 (- pH).
Let H_pos : 0 < H := ch_pos pH.
Let r1 : 0 < 1 + K1 Ks / H + K1 Ks * K2 Ks / H ^ 2 :=
  den_CO2_pos H_pos K1_pos K2_pos.
Let r2 : 0 < 1 + H / K1 Ks + K2 Ks / H := den_HCO3_pos H_pos K1_pos K2_pos.
Let r3 : 0 < 1 + H / K2 Ks + H ^ 2 / (K1 Ks * K2 Ks) :=
  den_CO3_pos H_pos K1_pos K2_pos.
Let ra : 0 < K1 Ks / H + 2 * K1 Ks * K2 Ks / H ^ 2 :=
  @ratio_alk_pos H Ks H_pos K1_pos K2_pos.

Ltac nz_rt :=
  solve [ apply Rgt_not_eq; first [ exact H_pos | exact r1 | exact r2
                                  | exact r3 | exact ra | assumption ]
        | apply Rgt_not_eq; pose proof H_pos; nra ].

Ltac go := cbn [float_Ks Ks_map K1 K2 KB KW]; rewrite ?ch_ok; fold H;
           repeat py_step nz_rt; f_equal; field;
           pose proof H_pos; repeat split; apply Rgt_not_eq; nra.

(** In exact real arithmetic (on floats, up to rounding).  The DIC that
    [CO2_pH] computes from a CO2 holds that CO2 again by
    [cCO2], and the CO2 that [cCO2] takes out of a DIC gives that DIC by
    [CO2_pH]. *)
Theorem CO2_pH_cCO2_round_trip (x : R) :
  cCO2 (ch (Ok pH)) (CO2_pH ch (Ok x) (Ok pH) (float_Ks Ks)) (float_Ks Ks)
    = Ok x /\
  CO2_pH ch (cCO2 (ch (Ok pH)) (Ok x) (float_Ks Ks)) (Ok pH) (float_Ks Ks)
    = Ok x.
Proof. unfold cCO2, CO2_pH. split; go. Qed.

(** The same for HCO3, in exact real arithmetic: [pH_HCO3] and [cHCO3] are
    inverse at one pH. *)
Theorem pH_HCO3_cHCO3_round_trip (x : R) :
  cHCO3 (ch (Ok pH)) (pH_HCO3 ch (Ok pH) (Ok x) (float_Ks Ks)) (float_Ks Ks)
    = Ok x /\
  pH_HCO3 ch (Ok pH) (cHCO3 (ch (Ok pH)) (Ok x) (float_Ks Ks)) (float_Ks Ks)
    = Ok x.
Proof. unfold cHCO3, pH_HCO3. split; go. Qed.

(** The same for CO3, in exact real arithmetic: [pH_CO3] and [cCO3] are
    inverse at one pH. *)
Theorem pH_CO3_cCO3_round_trip (x : R) :
  cCO3 (ch (Ok pH)) (pH_CO3 ch (Ok pH) (Ok x) (float_Ks Ks)) (float_Ks Ks)
    = Ok x /\
  pH_CO3 ch (Ok pH) (cCO3 (ch (Ok pH)) (Ok x) (float_Ks Ks)) (float_Ks Ks)
    = Ok x.
Proof. unfold cCO3, pH_CO3. split; go. Qed.

Hypothesis KB_nonneg : 0 <= KB Ks.

(** In exact real arithmetic (on floats, up to rounding).  [pH_TA] and
    [cTA] are inverse at one pH and one BT: the alkalinity of
    the CO2 that [pH_TA] returns is the TA it was given, and conversely. *)
Theorem pH_TA_cTA_round_trip (x BT : R) :
  cTA (pH_TA ch (Ok pH) (Ok x) (Ok BT) (float_Ks Ks)) (ch (Ok pH)) (Ok BT)
      (float_Ks Ks) = Ok x /\
  pH_TA ch (Ok pH) (cTA (Ok x) (ch (Ok pH)) (Ok BT) (float_Ks Ks)) (Ok BT)
      (float_Ks Ks) = Ok x.
Proof. unfold cTA, pH_TA. split; go. Qed.

End RoundTrips.

Section RoundTripWitnesses.
Local Open Scope R_scope.

Let P1 : 0 < K1 unit_Ks := Rlt_0_1.
Let P2 : 0 < K2 unit_Ks := Rlt_0_1.
Let P3 : 0 <= KB unit_Ks := Rlt_le _ _ Rlt_0_1.

Lemma CO2_pH_cCO2_round_trip_witness :
  0 < K1 unit_Ks /\ 0 < K2 unit_Ks /\
  cCO2 (ch (Ok 8)) (CO2_pH ch (Ok 2) (Ok 8) (float_Ks unit_Ks))
    (float_Ks unit_Ks) = Ok 2.
Proof.
  split; [exact P1 | split; [exact P2 |]].
  exact (proj1 (@CO2_pH_cCO2_round_trip unit_Ks P1 P2 8 2)).
Defined.

Lemma pH_HCO3_cHCO3_round_trip_witness :
  0 < K1 unit_Ks /\ 0 < K2 unit_Ks /\
  cHCO3 (ch (Ok 8)) (pH_HCO3 ch (Ok 8) (Ok 2) (float_Ks unit_Ks))
    (float_Ks unit_Ks) = Ok 2.
Proof.
  split; [exact P1 | split; [exact P2 |]].
  exact (proj1 (@pH_HCO3_cHCO3_round_trip unit_Ks P1 P2 8 2)).
Defined.

Lemma pH_CO3_cCO3_round_trip_witness :
  0 < K1 unit_Ks /\ 0 < K2 unit_Ks /\
  cCO3 (ch (Ok 8)) (pH_CO3 ch (Ok 8) (Ok 2) (float_Ks unit_Ks))
    (float_Ks unit_Ks) = Ok 2.
Proof.
  split; [exact P1 | split; [exact P2 |]].
  exact (proj1 (@pH_CO3_cCO3_round_trip unit_Ks P1 P2 8 2)).
Defined.

Lemma pH_TA_cTA_round_trip_witness :
  0 < K1 unit_Ks /\ 0 < K2 unit_Ks /\ 0 <= KB unit_Ks /\
  cTA (pH_TA ch (Ok 8) (Ok 2) (Ok 1) (float_Ks unit_Ks)) (ch (Ok 8)) (Ok 1)
    (float_Ks unit_Ks) = Ok 2.
Proof.
  split; [exact P1 | split; [exact P2 | split; [exact P3 |]]].
  exact (proj1 (@pH_TA_cTA_round_trip unit_Ks P1 P2 8 P3 2 1)).
Defined.

End RoundTripWitnesses.

(** ** What the converters return for physical inputs *)

Section Speciation.
Local Open Scope R_scope.
Variable Ks : Ks_t R.
Hypothesis K1_pos : 0 < K1 Ks.
Hypothesis K2_pos : 0 < K2 Ks.
Variable H : R.
Hypothesis H_pos : 0 < H.

Let r1 : 0 < 1 + K1 Ks / H + K1 Ks * K2 Ks / H ^ 2 :=
  den_CO2_pos H_pos K1_pos K2_pos.
Let r2 : 0 < 1 + H / K1 Ks + K2 Ks / H := den_HCO3_pos H_pos K1_pos K2_pos.
Let r3 : 0 < 1 + H / K2 Ks + H ^ 2 / (K1 Ks * K2 Ks) :=
  den_CO3_pos H_pos K1_pos K2_pos.

Ltac nz_sp :=
  solve [ apply Rgt_not_eq; first [ exact H_pos | exact r1 | exact r2
                                  | exact r3 | assumption ]
        | apply Rgt_not_eq; nra ].

Lemma cCO2_physical (DIC : R) :
  cCO2 (Ok H) (Ok DIC) (float_Ks Ks) = Ok (DIC / ratio_CO2 H Ks).
Proof. unfold cCO2, ratio_CO2. py_eval nz_sp. reflexivity. Qed.

Lemma cHCO3_physical (DIC : R) :
  cHCO3 (Ok H) (Ok DIC) (float_Ks Ks) = Ok (DIC / ratio_HCO3 H Ks).
Proof. unfold cHCO3, ratio_HCO3. py_eval nz_sp. reflexivity. Qed.

Lemma cCO3_physical (DIC : R) :
  cCO3 (Ok H) (Ok DIC) (float_Ks Ks) = Ok (DIC / ratio_CO3 H Ks).
Proof. unfold cCO3, ratio_CO3. py_eval nz_sp. reflexivity. Qed.

(** In exact real arithmetic.  The species the converters take out of one
    DIC obey the two equilibria: H . HCO3 = K1 . CO2 and H . CO3 = K2 . HCO3. *)
Theorem converters_obey_equilibria (DIC : R) :
  (Ok H * cHCO3 (Ok H) (Ok DIC) (float_Ks Ks))%py =
    (Ok (K1 Ks) * cCO2 (Ok H) (Ok DIC) (float_Ks Ks))%py /\
  (Ok H * cCO3 (Ok H) (Ok DIC) (float_Ks Ks))%py =
    (Ok (K2 Ks) * cHCO3 (Ok H) (Ok DIC) (float_Ks Ks))%py.
Proof.
  rewrite cCO2_physical, cHCO3_physical, cCO3_physical, !mul_ok.
  unfold ratio_CO2, ratio_HCO3, ratio_CO3.
  split; f_equal; field; repeat split; apply Rgt_not_eq; nra.
Qed.

(** In exact real arithmetic (floats can underflow at extreme H).  Each
    species is a proper share of a positive DIC: strictly between 0 and
    DIC. *)
Theorem converters_return_shares (DIC : R) :
  0 < DIC ->
  exists a b c : R,
    cCO2 (Ok H) (Ok DIC) (float_Ks Ks) = Ok a /\
    cHCO3 (Ok H) (Ok DIC) (float_Ks Ks) = Ok b /\
    cCO3 (Ok H) (Ok DIC) (float_Ks Ks) = Ok c /\
    0 < a < DIC /\ 0 < b < DIC /\ 0 < c < DIC.
Proof.
  intros HD.
  exists (DIC / ratio_CO2 H Ks), (DIC / ratio_HCO3 H Ks),
         (DIC / ratio_CO3 H Ks).
  rewrite cCO2_physical, cHCO3_physical, cCO3_physical.
  assert (B : forall r, 1 < r -> 0 < DIC / r < DIC).
  { intros r Hr.
    assert (Q : 0 < DIC / r) by (apply Rdiv_lt_0_compat; lra).
    assert (E : DIC = DIC / r * r) by (field; lra).
    split; [exact Q |]. set (q := DIC / r) in *. nra. }
  assert (0 < K1 Ks / H) by (apply Rdiv_lt_0_compat; lra).
  assert (0 < K1 Ks * K2 Ks / H ^ 2) by (apply Rdiv_lt_0_compat; nra).
  assert (0 < H / K1 Ks) by (apply Rdiv_lt_0_compat; lra).
  assert (0 < K2 Ks / H) by (apply Rdiv_lt_0_compat; lra).
  assert (0 < H / K2 Ks) by (apply Rdiv_lt_0_compat; lra).
  assert (0 < H ^ 2 / (K1 Ks * K2 Ks)) by (apply Rdiv_lt_0_compat; nra).
  repeat split; try reflexivity; apply B;
    unfold ratio_CO2, ratio_HCO3, ratio_CO3; lra.
Qed.

End Speciation.

Section SpeciationWitnesses.
Local Open Scope R_scope.

Let P : 0 < 1 := Rlt_0_1.

Lemma converters_obey_equilibria_witness :
  0 < K1 unit_Ks /\ 0 < K2 unit_Ks /\ 0 < 1 /\
  (Ok 1%R * cHCO3 (Ok 1%R) (Ok 3%R) (float_Ks unit_Ks))%py =
    (Ok (K1 unit_Ks) * cCO2 (Ok 1%R) (Ok 3%R) (float_Ks unit_Ks))%py.
Proof.
  repeat apply conj; try exact P.
  exact (proj1 (@converters_obey_equilibria unit_Ks P P 1 P 3)).
Defined.

Lemma converters_return_shares_witness :
  0 < K1 unit_Ks /\ 0 < K2 unit_Ks /\ 0 < 1 /\ 0 < 3 /\
  exists a b c : R,
    cCO2 (Ok 1) (Ok 3) (float_Ks unit_Ks) = Ok a /\
    cHCO3 (Ok 1) (Ok 3) (float_Ks unit_Ks) = Ok b /\
    cCO3 (Ok 1) (Ok 3) (float_Ks unit_Ks) = Ok c /\
    0 < a < 3 /\ 0 < b < 3 /\ 0 < c < 3.
Proof.
  assert (P3 : 0 < 3) by lra.
  repeat apply conj; try exact P; try exact P3.
  exact (@converters_return_shares unit_Ks P P 1 P 3 P3).
Defined.

End SpeciationWitnesses.

(** ** The roots of the residuals *)

Section ResidualRoots.
Local Open Scope R_scope.

Lemma ok_product_zero (F D : R) :
  F <> 0 -> (Ok (F * D) = Ok 0 :> pyfloat) <-> D = 0.
Proof.
  intros HF. split.
  - intros E. injection E as E.
    apply Rmult_integral in E. destruct E; [contradiction | assumption].
  - intros ->. f_equal. ring.
Qed.

Variable Ks : Ks_t R.
Hypothesis K1_pos : 0 < K1 Ks.
Hypothesis K2_pos : 0 < K2 Ks.
Variable h : R.
Hypothesis h_pos : 0 < h.

(** The common factor h^2 + K1 h + K1 K2 of the residuals. *)
Let S : R := h ^ 2 + K1 Ks * h + K1 Ks * K2 Ks.

Let S_nonzero : S <> 0.
Proof. apply Rgt_not_eq. unfold S. nra. Qed.

Ltac nz_root := solve [ apply Rgt_not_eq; assumption | apply Rgt_not_eq; nra ].

Ltac side := repeat split; first [ assumption | apply Rgt_not_eq; nra ].

(** For CO2 and HCO3 given, the positive root of the residual is
    K1 . CO2 / HCO3: the first equilibrium solved for H. *)
Theorem zero_CO2_HCO3_root (CO2 HCO3 : R) :
  HCO3 <> 0 ->
  zero_CO2_HCO3 (Ok h) (Ok CO2) (Ok HCO3) (float_Ks Ks) = Ok 0 <->
  h = K1 Ks * CO2 / HCO3.
Proof.
  intros HN.
  assert (V : zero_CO2_HCO3 (Ok h) (Ok CO2) (Ok HCO3) (float_Ks Ks) =
              Ok (S * (CO2 - HCO3 * h / K1 Ks))).
  { unfold zero_CO2_HCO3, S. py_eval nz_root. f_equal. field. side. }
  rewrite V, (ok_product_zero _ S_nonzero). split; intros E.
  - replace CO2 with (HCO3 * h / K1 Ks) by lra. field. side.
  - rewrite E. field. side.
Qed.

(** For CO2 and CO3 given, with CO3 positive, the positive root of the
    residual is sqrt (K1 K2 CO2 / CO3). *)
Theorem zero_CO2_CO3_root (CO2 CO3 : R) :
  0 < CO3 ->
  zero_CO2_CO3 (Ok h) (Ok CO2) (Ok CO3) (float_Ks Ks) = Ok 0 <->
  h = sqrt (K1 Ks * K2 Ks * CO2 / CO3).
Proof.
  intros HP.
  assert (V : zero_CO2_CO3 (Ok h) (Ok CO2) (Ok CO3) (float_Ks Ks) =
              Ok (S * (CO2 - CO3 * h ^ 2 / (K1 Ks * K2 Ks)))).
  { unfold zero_CO2_CO3, S. py_eval nz_root. f_equal. field. side. }
  rewrite V, (ok_product_zero _ S_nonzero). split; intros E.
  - replace CO2 with (CO3 * h ^ 2 / (K1 Ks * K2 Ks)) by lra.
    replace (K1 Ks * K2 Ks * (CO3 * h ^ 2 / (K1 Ks * K2 Ks)) / CO3)
      with (h * h) by (field; side).
    symmetry. apply sqrt_square. lra.
  - set (x := K1 Ks * K2 Ks * CO2 / CO3) in *.
    assert (Hx : 0 <= x).
    { destruct (Rle_lt_dec 0 x) as [L | L]; [exact L |].
      rewrite (sqrt_neg_0 x) in E by lra. lra. }
    assert (Hs : h ^ 2 = x).
    { rewrite E. replace (sqrt x ^ 2) with (sqrt x * sqrt x) by ring.
      apply sqrt_sqrt, Hx. }
    rewrite Hs. unfold x. field. side.
Qed.

(** For HCO3 and CO3 given, the positive root of the residual is
    K2 . HCO3 / CO3: the second equilibrium solved for H. *)
Theorem zero_HCO3_CO3_root (HCO3 CO3 : R) :
  CO3 <> 0 ->
  zero_HCO3_CO3 (Ok h) (Ok HCO3) (Ok CO3) (float_Ks Ks) = Ok 0 <->
  h = K2 Ks * HCO3 / CO3.
Proof.
  intros HN.
  assert (V : zero_HCO3_CO3 (Ok h) (Ok HCO3) (Ok CO3) (float_Ks Ks) =
              Ok (S * (HCO3 / K1 Ks - CO3 * h / (K1 Ks * K2 Ks)))).
  { unfold zero_HCO3_CO3, S. py_eval nz_root. f_equal. field. side. }
  rewrite V, (ok_product_zero _ S_nonzero). split; intros E.
  - assert (E' : HCO3 = CO3 * h / K2 Ks).
    { apply (Rmult_eq_reg_r (/ K1 Ks)); [| apply Rinv_neq_0_compat; nz_root].
      transitivity (HCO3 / K1 Ks); [reflexivity |].
      transitivity (CO3 * h / (K1 Ks * K2 Ks)); [lra | field; side]. }
    rewrite E'. field. side.
  - rewrite E. field. side.
Qed.

End ResidualRoots.

Section ResidualRootsDIC.
Local Open Scope R_scope.
Variable Ks : Ks_t R.
Hypothesis K1_pos : 0 < K1 Ks.
Hypothesis K2_pos : 0 < K2 Ks.

Ltac nz_root := solve [ apply Rgt_not_eq; assumption | apply Rgt_not_eq; nra ].

Ltac side := repeat split; first [ assumption | apply Rgt_not_eq; nra ].

Lemma ok_inj (a b : R) : Ok a = Ok b -> a = b.
Proof. intros E. injection E as E. exact E. Qed.

Lemma zero_CO2_DIC_value (h CO2 DIC : R) :
  zero_CO2_DIC (Ok h) (Ok CO2) (Ok DIC) (float_Ks Ks) =
  Ok (DIC * h ^ 2 - CO2 * (h ^ 2 + K1 Ks * h + K1 Ks * K2 Ks)).
Proof. unfold zero_CO2_DIC. py_eval nz_root. reflexivity. Qed.

Lemma zero_HCO3_DIC_value (h HCO3 DIC : R) :
  zero_HCO3_DIC (Ok h) (Ok HCO3) (Ok DIC) (float_Ks Ks) =
  Ok (HCO3 * (h + h ^ 2 / K1 Ks + K2 Ks) - h * DIC).
Proof. unfold zero_HCO3_DIC. py_eval nz_root. reflexivity. Qed.

Lemma zero_CO3_DIC_value (h CO3 DIC : R) :
  zero_CO3_DIC (Ok h) (Ok CO3) (Ok DIC) (float_Ks Ks) =
  Ok (CO3 * (1 + h / K2 Ks + h ^ 2 / (K1 Ks * K2 Ks)) - DIC).
Proof. unfold zero_CO3_DIC. py_eval nz_root. reflexivity. Qed.

(** At a positive h, the residual of a species and DIC vanishes exactly
    where the converter of that species takes the given value out of the
    given DIC. *)
Theorem DIC_residuals_vanish_where_converters_agree (h x DIC : R) :
  0 < h ->
  (zero_CO2_DIC (Ok h) (Ok x) (Ok DIC) (float_Ks Ks) = Ok 0 <->
   cCO2 (Ok h) (Ok DIC) (float_Ks Ks) = Ok x) /\
  (zero_HCO3_DIC (Ok h) (Ok x) (Ok DIC) (float_Ks Ks) = Ok 0 <->
   cHCO3 (Ok h) (Ok DIC) (float_Ks Ks) = Ok x) /\
  (zero_CO3_DIC (Ok h) (Ok x) (Ok DIC) (float_Ks Ks) = Ok 0 <->
   cCO3 (Ok h) (Ok DIC) (float_Ks Ks) = Ok x).
Proof.
  intros h_pos.
  pose proof (den_CO2_pos h_pos K1_pos K2_pos) as r1.
  pose proof (den_HCO3_pos h_pos K1_pos K2_pos) as r2.
  pose proof (den_CO3_pos h_pos K1_pos K2_pos) as r3.
  rewrite zero_CO2_DIC_value, zero_HCO3_DIC_value, zero_CO3_DIC_value.
  rewrite (@cCO2_physical Ks K1_pos K2_pos h h_pos),
          (@cHCO3_physical Ks K1_pos K2_pos h h_pos),
          (@cCO3_physical Ks K1_pos K2_pos h h_pos).
  unfold ratio_CO2, ratio_HCO3, ratio_CO3.
  set (d1 := 1 + K1 Ks / h + K1 Ks * K2 Ks / h ^ 2) in *.
  set (d2 := 1 + h / K1 Ks + K2 Ks / h) in *.
  set (d3 := 1 + h / K2 Ks + h ^ 2 / (K1 Ks * K2 Ks)) in *.
  assert (E1 : DIC * h ^ 2 - x * (h ^ 2 + K1 Ks * h + K1 Ks * K2 Ks) =
               h ^ 2 * d1 * (DIC / d1 - x)).
  { unfold d1 in *. field. side. }
  assert (E2 : x * (h + h ^ 2 / K1 Ks + K2 Ks) - h * DIC =
               h * d2 * (x - DIC / d2)).
  { unfold d2 in *. field. side. }
  assert (E3 : x * d3 - DIC = d3 * (x - DIC / d3)).
  { field. lra. }
  rewrite E1, E2, E3.
  assert (N1 : h ^ 2 * d1 <> 0)
    by (apply Rgt_not_eq, Rmult_lt_0_compat; [nra | exact r1]).
  assert (N2 : h * d2 <> 0)
    by (apply Rgt_not_eq, Rmult_lt_0_compat; [exact h_pos | exact r2]).
  assert (N3 : d3 <> 0) by lra.
  rewrite (ok_product_zero _ N1), (ok_product_zero _ N2),
          (ok_product_zero _ N3).
  repeat split; intros E;
    first [ f_equal; lra | injection E as E; lra ].
Qed.

(** Roots: one positive, one negative, for 0 < CO2 < DIC: two distinct
    roots of the residual of [CO2_DIC] have opposite signs. *)
Theorem zero_CO2_DIC_roots_have_opposite_signs (CO2 DIC h1 h2 : R) :
  0 < CO2 < DIC -> h1 <> h2 ->
  zero_CO2_DIC (Ok h1) (Ok CO2) (Ok DIC) (float_Ks Ks) = Ok 0 ->
  zero_CO2_DIC (Ok h2) (Ok CO2) (Ok DIC) (float_Ks Ks) = Ok 0 ->
  h1 * h2 < 0.
Proof.
  intros [HC HD] Hne E1 E2.
  rewrite zero_CO2_DIC_value in E1, E2.
  apply ok_inj in E1. apply ok_inj in E2.
  assert (Hs : (DIC - CO2) * (h1 + h2) = CO2 * K1 Ks).
  { apply (Rmult_eq_reg_l (h1 - h2)); [nra | lra]. }
  assert (Hp : (DIC - CO2) * (h1 * h2) = - (CO2 * K1 Ks * K2 Ks)) by nra.
  assert (0 < CO2 * K1 Ks * K2 Ks)
    by (apply Rmult_lt_0_compat; [apply Rmult_lt_0_compat |]; lra).
  nra.
Qed.

Lemma zero_HCO3_DIC_scaled (h HCO3 DIC : R) :
  HCO3 * h ^ 2 - (DIC - HCO3) * K1 Ks * h + HCO3 * K1 Ks * K2 Ks =
  K1 Ks * (HCO3 * (h + h ^ 2 / K1 Ks + K2 Ks) - h * DIC).
Proof. field. side. Qed.

(** In exact real arithmetic.  At the guess 0 of [HCO3_DIC] the residual is
    HCO3 . K2, whatever the inputs.  For 0 < HCO3 < DIC: every real root of
    the residual is positive, and with a root h also K1 K2 / h is one (the
    "two positive roots" of the comment, where there are roots); there is a
    real root exactly when 4 HCO3^2 K2 <= (DIC - HCO3)^2 K1, so there may
    be none. *)
Theorem zero_HCO3_DIC_roots_are_positive (HCO3 DIC : R) :
  zero_HCO3_DIC (Ok 0) (Ok HCO3) (Ok DIC) (float_Ks Ks) =
    Ok (HCO3 * K2 Ks) /\
  (0 < HCO3 < DIC ->
   (forall h : R,
      zero_HCO3_DIC (Ok h) (Ok HCO3) (Ok DIC) (float_Ks Ks) = Ok 0 ->
      0 < h /\
      zero_HCO3_DIC (Ok (K1 Ks * K2 Ks / h)) (Ok HCO3) (Ok DIC)
        (float_Ks Ks) = Ok 0) /\
   ((exists h : R,
       zero_HCO3_DIC (Ok h) (Ok HCO3) (Ok DIC) (float_Ks Ks) = Ok 0) <->
    4 * HCO3 ^ 2 * K2 Ks <= (DIC - HCO3) ^ 2 * K1 Ks)).
Proof.
  split; [rewrite zero_HCO3_DIC_value; f_equal; field; side |].
  intros [HC HD].
  assert (P3 : 0 < HCO3 * K1 Ks * K2 Ks)
    by (apply Rmult_lt_0_compat; [apply Rmult_lt_0_compat |]; lra).
  assert (Pc : 0 < (DIC - HCO3) * K1 Ks) by (apply Rmult_lt_0_compat; lra).
  split.
  - intros h E. rewrite zero_HCO3_DIC_value in E. apply ok_inj in E.
    pose proof (zero_HCO3_DIC_scaled h HCO3 DIC) as Q.
    rewrite E, Rmult_0_r in Q.
    assert (Hh : 0 < h).
    { destruct (Rlt_le_dec 0 h) as [L | L]; [exact L |].
      assert (0 <= HCO3 * h ^ 2) by (apply Rmult_le_pos; [lra | nra]).
      set (c := (DIC - HCO3) * K1 Ks) in *.
      assert (c * h <= 0) by nra.
      lra. }
    split; [exact Hh |].
    rewrite zero_HCO3_DIC_value. f_equal.
    transitivity ((HCO3 * h ^ 2 - (DIC - HCO3) * K1 Ks * h +
                   HCO3 * K1 Ks * K2 Ks) * (K2 Ks / h ^ 2)).
    + field. side.
    + rewrite Q. ring.
  - pose (a := HCO3). pose (b := (DIC - HCO3) * K1 Ks).
    pose (c := HCO3 * K1 Ks * K2 Ks).
    assert (Hd : b ^ 2 - 4 * a * c =
                 K1 Ks * ((DIC - HCO3) ^ 2 * K1 Ks - 4 * HCO3 ^ 2 * K2 Ks))
      by (unfold a, b, c; ring).
    split.
    + intros [h E]. rewrite zero_HCO3_DIC_value in E. apply ok_inj in E.
      pose proof (zero_HCO3_DIC_scaled h HCO3 DIC) as Q.
      rewrite E, Rmult_0_r in Q.
      change (a * h ^ 2 - b * h + c = 0) in Q.
      assert (Hsq : b ^ 2 - 4 * a * c = (2 * a * h - b) ^ 2).
      { replace (b ^ 2 - 4 * a * c)
          with ((2 * a * h - b) ^ 2 - 4 * a * (a * h ^ 2 - b * h + c))
          by ring.
        rewrite Q. ring. }
      assert (0 <= (2 * a * h - b) ^ 2) by apply pow2_ge_0.
      assert (G : 0 <= K1 Ks *
                  ((DIC - HCO3) ^ 2 * K1 Ks - 4 * HCO3 ^ 2 * K2 Ks)) by lra.
      set (d := (DIC - HCO3) ^ 2 * K1 Ks - 4 * HCO3 ^ 2 * K2 Ks) in *.
      assert (0 <= d) by nra. unfold d in *. lra.
    + intros G.
      assert (HD0 : 0 <= b ^ 2 - 4 * a * c).
      { rewrite Hd. apply Rmult_le_pos; lra. }
      exists ((b + sqrt (b ^ 2 - 4 * a * c)) / (2 * a)).
      set (r := sqrt (b ^ 2 - 4 * a * c)).
      assert (Hr : r * r = b ^ 2 - 4 * a * c) by (apply sqrt_sqrt, HD0).
      rewrite zero_HCO3_DIC_value. f_equal.
      apply (Rmult_eq_reg_l (K1 Ks)); [| nz_root].
      rewrite <- zero_HCO3_DIC_scaled, Rmult_0_r.
      change (a * ((b + r) / (2 * a)) ^ 2 - b * ((b + r) / (2 * a)) + c = 0).
      transitivity ((r * r - (b ^ 2 - 4 * a * c)) / (4 * a)).
      * unfold a. field. lra.
      * rewrite Hr. unfold a. field. lra.
Qed.

(** Roots: one positive, one negative, for 0 < CO3 < DIC: two distinct
    roots of the residual of [CO3_DIC] have opposite signs. *)
Theorem zero_CO3_DIC_roots_have_opposite_signs (CO3 DIC h1 h2 : R) :
  0 < CO3 < DIC -> h1 <> h2 ->
  zero_CO3_DIC (Ok h1) (Ok CO3) (Ok DIC) (float_Ks Ks) = Ok 0 ->
  zero_CO3_DIC (Ok h2) (Ok CO3) (Ok DIC) (float_Ks Ks) = Ok 0 ->
  h1 * h2 < 0.
Proof.
  intros [HC HD] Hne E1 E2.
  rewrite zero_CO3_DIC_value in E1, E2.
  apply ok_inj in E1. apply ok_inj in E2.
  assert (Q : forall h, CO3 * (1 + h / K2 Ks + h ^ 2 / (K1 Ks * K2 Ks)) - DIC = 0 ->
              CO3 * h ^ 2 + CO3 * K1 Ks * h = (DIC - CO3) * (K1 Ks * K2 Ks)).
  { intros h E.
    transitivity ((CO3 * (1 + h / K2 Ks + h ^ 2 / (K1 Ks * K2 Ks)) - DIC) *
                  (K1 Ks * K2 Ks) + (DIC - CO3) * (K1 Ks * K2 Ks));
      [field; side | rewrite E; ring]. }
  apply Q in E1. apply Q in E2.
  assert (Hs : CO3 * (h1 + h2) = - (CO3 * K1 Ks)).
  { apply (Rmult_eq_reg_l (h1 - h2)); [nra | lra]. }
  assert (Hp : CO3 * (h1 * h2) = - ((DIC - CO3) * (K1 Ks * K2 Ks))) by nra.
  assert (0 < (DIC - CO3) * (K1 Ks * K2 Ks))
    by (apply Rmult_lt_0_compat; [| apply Rmult_lt_0_compat]; lra).
  nra.
Qed.

End ResidualRootsDIC.

Section ResidualRootsTA.
Local Open Scope R_scope.
Variable Ks : Ks_t R.
Hypothesis K1_pos : 0 < K1 Ks.
Hypothesis K2_pos : 0 < K2 Ks.
Hypothesis KB_nonneg : 0 <= KB Ks.
Variable h : R.
Hypothesis h_pos : 0 < h.

Let F : R := (h ^ 2 + K1 Ks * h + K1 Ks * K2 Ks) * h * (KB Ks + h).

Let F_nonzero : F <> 0.
Proof.
  apply Rgt_not_eq. unfold F.
  apply Rmult_lt_0_compat; [apply Rmult_lt_0_compat |]; nra.
Qed.

Let h_nonzero : h <> 0 := Rgt_not_eq _ _ h_pos.

Let KBh_nonzero : KB Ks + h <> 0.
Proof. apply Rgt_not_eq. lra. Qed.

Ltac nz_root := solve [ apply Rgt_not_eq; assumption | apply Rgt_not_eq; nra ].

Ltac side := repeat split; first [ assumption | apply Rgt_not_eq; nra ].

Ltac conclude :=
  split; intros E; first [ f_equal; lra | apply ok_inj in E; lra ].

(** For HCO3 and TA given: at a positive h the residual vanishes exactly
    where [cTA], fed the CO2 in equilibrium with that HCO3 (h . HCO3 / K1),
    returns the given TA. *)
Theorem zero_HCO3_TA_vanishes_where_cTA_agrees (HCO3 TA BT : R) :
  zero_HCO3_TA (Ok h) (Ok HCO3) (Ok TA) (Ok BT) (float_Ks Ks) = Ok 0 <->
  cTA (Ok (h * HCO3 / K1 Ks)) (Ok h) (Ok BT) (float_Ks Ks) = Ok TA.
Proof.
  rewrite (cTA_value _ _ Ks h_nonzero KBh_nonzero).
  set (t := h * HCO3 / K1 Ks * (K1 Ks / h + 2 * K1 Ks * K2 Ks / h ^ 2) +
            BT * KB Ks / (KB Ks + h) + KW Ks / h - h).
  assert (V : zero_HCO3_TA (Ok h) (Ok HCO3) (Ok TA) (Ok BT) (float_Ks Ks) =
              Ok (F * (TA - t))).
  { unfold zero_HCO3_TA, F, t. py_eval nz_root. f_equal. field. side. }
  rewrite V, (ok_product_zero _ F_nonzero). conclude.
Qed.

(** For CO3 and TA given: the same, with the CO2 in equilibrium with that
    CO3, h^2 . CO3 / (K1 K2). *)
Theorem zero_CO3_TA_vanishes_where_cTA_agrees (CO3 TA BT : R) :
  zero_CO3_TA (Ok h) (Ok CO3) (Ok TA) (Ok BT) (float_Ks Ks) = Ok 0 <->
  cTA (Ok (h ^ 2 * CO3 / (K1 Ks * K2 Ks))) (Ok h) (Ok BT) (float_Ks Ks)
    = Ok TA.
Proof.
  rewrite (cTA_value _ _ Ks h_nonzero KBh_nonzero).
  set (t := h ^ 2 * CO3 / (K1 Ks * K2 Ks) *
              (K1 Ks / h + 2 * K1 Ks * K2 Ks / h ^ 2) +
            BT * KB Ks / (KB Ks + h) + KW Ks / h - h).
  assert (V : zero_CO3_TA (Ok h) (Ok CO3) (Ok TA) (Ok BT) (float_Ks Ks) =
              Ok (F * (TA - t))).
  { unfold zero_CO3_TA, F, t. py_eval nz_root. f_equal. field. side. }
  rewrite V, (ok_product_zero _ F_nonzero). conclude.
Qed.

(** For TA and DIC given: at a positive h the residual vanishes exactly
    where the CO2 that [cCO2] takes out of the DIC has, by [cTA], the given
    TA. *)
Theorem zero_TA_DIC_vanishes_where_cTA_agrees (TA DIC BT : R) :
  zero_TA_DIC (Ok h) (Ok TA) (Ok DIC) (Ok BT) (float_Ks Ks) = Ok 0 <->
  cTA (cCO2 (Ok h) (Ok DIC) (float_Ks Ks)) (Ok h) (Ok BT) (float_Ks Ks)
    = Ok TA.
Proof.
  pose proof (den_CO2_pos h_pos K1_pos K2_pos) as r1.
  rewrite (@cCO2_physical Ks K1_pos K2_pos h h_pos).
  rewrite (cTA_value _ _ Ks h_nonzero KBh_nonzero). unfold ratio_CO2.
  set (t := DIC / (1 + K1 Ks / h + K1 Ks * K2 Ks / h ^ 2) *
              (K1 Ks / h + 2 * K1 Ks * K2 Ks / h ^ 2) +
            BT * KB Ks / (KB Ks + h) + KW Ks / h - h).
  assert (V : zero_TA_DIC (Ok h) (Ok TA) (Ok DIC) (Ok BT) (float_Ks Ks) =
              Ok (F * (t - TA))).
  { unfold zero_TA_DIC, F, t. py_eval nz_root. f_equal. field. side. }
  rewrite V, (ok_product_zero _ F_nonzero). conclude.
Qed.

End ResidualRootsTA.

(** ** The residual closures on arrays *)

Section Elementwise.
Local Open Scope R_scope.

Lemma map_result_ok (f : R -> result R) (g : R -> R) (xs : list R) :
  Forall (fun x => f x = Ok (g x)) xs -> map_result f xs = Ok (map g xs).
Proof.
  induction 1 as [| x xs Hx _ IH]; cbn; [reflexivity |].
  rewrite Hx, IH. reflexivity.
Qed.

Lemma zip_result_ok (f : R -> R -> result R) (g : R -> R -> R)
  (xs ys : list R) :
  length xs = length ys ->
  Forall (fun y => forall x, f x y = Ok (g x y)) ys ->
  zip_result f xs ys =
  Ok (map (fun p => g (fst p) (snd p)) (combine xs ys)).
Proof.
  revert ys. induction xs as [| x xs IH]; intros [| y ys] Hl Hf; cbn;
    try reflexivity; try discriminate.
  inversion Hf as [| ? ? Hy Hys]; subst.
  rewrite Hy, (IH ys); [reflexivity | cbn in Hl; lia | assumption].
Qed.

Variable L : nat.
Hypothesis L_pos : (0 < L)%nat.

(** The broadcast of an operator that does not raise on the entries of its
    right operand. *)
Lemma broadcast_ok (f : R -> R -> result R) (g : R -> R -> R)
  (a b : ndarray R) :
  fits L a -> fits L b ->
  (forall j, (j < L)%nat -> forall x, f x (entry b j) = Ok (g x (entry b j))) ->
  exists c : ndarray R,
    broadcast f a b = Ok c /\ fits L c /\
    is_1d c = (is_1d a || is_1d b)%bool /\
    forall i, (i < L)%nat -> entry c i = g (entry a i) (entry b i).
Proof.
  intros Fa Fb Hf.
  assert (Hall : match b with
                 | Scalar y => forall x, f x y = Ok (g x y)
                 | Array ys => Forall (fun y => forall x, f x y = Ok (g x y)) ys
                 end).
  { destruct b as [y | ys]; cbn in *.
    - exact (Hf 0%nat L_pos).
    - apply Forall_forall. intros y Hy.
      destruct (In_nth _ _ 0 Hy) as [j [Hj <-]]. apply Hf. lia. }
  destruct a as [x | xs], b as [y | ys]; cbn in *.
  - exists (Scalar (g x y)). rewrite Hall. cbn. repeat split.
  - exists (Array (map (g x) ys)).
    rewrite (map_result_ok (f x) (g x)).
    + cbn. repeat split; [rewrite length_map; assumption |].
      intros i Hi. rewrite (nth_indep _ 0 (g x 0)) by (rewrite length_map; lia).
      apply map_nth.
    + eapply Forall_impl; [| exact Hall]. intros y Hy. apply Hy.
  - exists (Array (map (fun x => g x y) xs)).
    rewrite (map_result_ok (fun x => f x y) (fun x => g x y)).
    + cbn. repeat split; [rewrite length_map; assumption |].
      intros i Hi.
      rewrite (nth_indep _ 0 (g 0 y)) by (rewrite length_map; lia).
      apply (map_nth (fun x => g x y)).
    + apply Forall_forall. intros x _. apply Hall.
  - exists (Array (map (fun p => g (fst p) (snd p)) (combine xs ys))).
    rewrite Fa, Fb, Nat.eqb_refl.
    rewrite (zip_result_ok f g) by (try assumption; lia).
    cbn. repeat split.
    + rewrite length_map, length_combine. lia.
    + intros i Hi.
      rewrite (nth_indep _ 0 (g 0 0))
        by (rewrite length_map, length_combine; lia).
      rewrite (map_nth (fun p => g (fst p) (snd p)) (combine xs ys) (0, 0)).
      rewrite combine_nth by lia. reflexivity.
Qed.

Variable i : nat.
Hypothesis i_lt : (i < L)%nat.

Lemma holds_leaf (a : ndarray R) :
  fits L a -> holds_at L i (is_1d a) (Ok a) (Ok (entry a i)).
Proof. intros Fa. exists a. repeat split. exact Fa. Qed.

Lemma holds_lit (z : Z) : holds_at L i false (lit z) (lit z).
Proof. exists (Scalar (IZR z)). repeat split. Qed.

Lemma holds_op (f : R -> R -> result R) (g : R -> R -> R)
  (k1 k2 : bool) (A B : pyarray) (x y : pyfloat) :
  holds_at L i k1 A x -> holds_at L i k2 B y ->
  (forall b, B = Ok b -> forall j, (j < L)%nat ->
     forall u, f u (entry b j) = Ok (g u (entry b j))) ->
  holds_at L i (k1 || k2) (lift2 (broadcast f) A B) (lift2 f x y).
Proof.
  intros [a [-> [Fa [<- ->]]]] [b [-> [Fb [<- ->]]]] Hf.
  destruct (broadcast_ok f g a b Fa Fb (Hf b eq_refl)) as [c [Ec [Fc [Kc Hc]]]].
  exists c. cbn. rewrite Ec. repeat split; try assumption.
  rewrite (Hf b eq_refl i i_lt), (Hc i i_lt). reflexivity.
Qed.

Lemma holds_add (k1 k2 : bool) (A B : pyarray) (x y : pyfloat) :
  holds_at L i k1 A x -> holds_at L i k2 B y ->
  holds_at L i (k1 || k2) (A + B)%py (x + y)%py.
Proof. intros HA HB. apply (holds_op _ Rplus HA HB). reflexivity. Qed.

Lemma holds_sub (k1 k2 : bool) (A B : pyarray) (x y : pyfloat) :
  holds_at L i k1 A x -> holds_at L i k2 B y ->
  holds_at L i (k1 || k2) (A - B)%py (x - y)%py.
Proof. intros HA HB. apply (holds_op _ Rminus HA HB). reflexivity. Qed.

Lemma holds_mul (k1 k2 : bool) (A B : pyarray) (x y : pyfloat) :
  holds_at L i k1 A x -> holds_at L i k2 B y ->
  holds_at L i (k1 || k2) (A * B)%py (x * y)%py.
Proof. intros HA HB. apply (holds_op _ Rmult HA HB). reflexivity. Qed.

Lemma holds_pow (k : bool) (A : pyarray) (x : pyfloat) (n : nat) :
  holds_at L i k A x -> holds_at L i k (A ** n)%py (x ** n)%py.
Proof.
  intros [a [-> [Fa [<- ->]]]]. exists (array_pow a n).
  destruct a as [v | vs].
  - repeat split.
  - cbn [fits] in Fa. split; [reflexivity |].
    split; [cbn [array_pow fits]; rewrite length_map; exact Fa |].
    split; [reflexivity |].
    cbn [array_pow entry]. rewrite pow_ok. f_equal.
    rewrite (nth_indep (map (fun v => v ^ n) vs) 0 (0 ^ n))
      by (rewrite length_map; lia).
    symmetry. apply (map_nth (fun v => v ^ n)).
Qed.

Lemma holds_div (k : bool) (A : pyarray) (x : pyfloat) (b : ndarray R) :
  holds_at L i k A x -> fits L b ->
  (forall j, (j < L)%nat -> entry b j <> 0) ->
  holds_at L i (k || is_1d b) (A / Ok b)%py (x / Ok (entry b i))%py.
Proof.
  intros HA Fb Hb. apply (holds_op _ Rdiv HA (holds_leaf b Fb)).
  intros b' Eb j Hj u. injection Eb as <-. unfold fdiv.
  destruct (Req_dec_T (entry b j) 0) as [E | _]; [| reflexivity].
  exfalso. exact (Hb j Hj E).
Qed.

Lemma holds_div_product (k : bool) (A : pyarray) (x : pyfloat)
  (b c : ndarray R) :
  holds_at L i k A x -> fits L b -> fits L c ->
  (forall j, (j < L)%nat -> entry b j <> 0) ->
  (forall j, (j < L)%nat -> entry c j <> 0) ->
  holds_at L i (k || (is_1d b || is_1d c))
    (A / (Ok b * Ok c))%py (x / (Ok (entry b i) * Ok (entry c i)))%py.
Proof.
  intros HA Fb Fc Hb Hc.
  destruct (broadcast_ok (fun u v => Ok (u * v)) Rmult b c Fb Fc
              (fun _ _ _ => eq_refl)) as [d [Ed [Fd [Kd Hd]]]].
  assert (E1 : (Ok b * Ok c)%py = Ok d) by exact Ed.
  rewrite E1, mul_ok, <- (Hd i i_lt), <- Kd.
  apply holds_div; [assumption | assumption |].
  intros j Hj. rewrite (Hd j Hj). apply mult_nonzero; auto.
Qed.

End Elementwise.

Lemma holds_true (L i : nat) (k : bool) (A : pyarray) (x : pyfloat) :
  holds_at L i k A x -> k = true -> holds_at L i true A x.
Proof. intros H <-. exact H. Qed.

Lemma elementwise_collect (L : nat) (X : pyarray) (F : nat -> pyfloat) :
  0 < L ->
  (forall i, i < L -> holds_at L i true X (F i)) ->
  exists rs : list R,
    X = Ok (Array rs) /\ length rs = L /\
    forall i, i < L -> F i = Ok (nth i rs 0%R).
Proof.
  intros HL H. destruct (H 0 HL) as [a [Ea [Fa [Ka _]]]].
  destruct a as [v | rs]; [discriminate Ka |].
  exists rs. repeat split; [exact Ea | exact Fa |].
  intros i Hi. destruct (H i Hi) as [a' [Ea' [_ [_ Hv]]]].
  rewrite Ea in Ea'. injection Ea' as <-. exact Hv.
Qed.

Ltac holds_step HL Hi :=
  first
    [ match goal with
      | |- holds_at _ _ _ (Ok ?a) _ =>
          apply (holds_leaf _ _ a); first [ assumption | reflexivity ]
      end
    | apply holds_lit
    | eapply (holds_add HL Hi) | eapply (holds_sub HL Hi)
    | eapply (holds_mul HL Hi) | eapply (holds_pow HL Hi)
    | eapply (holds_div_product HL Hi);
        [ | assumption | assumption | assumption | assumption ]
    | eapply (holds_div HL Hi); [ | assumption | assumption ] ].

Ltac elementwise zero :=
  intros hs; intros;
  match goal with
  | HL : 0 < length hs, HK : usable_Ks _ _ |- _ =>
      destruct HK as [F1 [F2 [F3 [F4 [N1 N2]]]]];
      apply (elementwise_collect _ HL); intros i Hi;
      unfold call2, call3, zero, float_Ks, Ks_at;
      cbn [fst snd Ks_map K1 K2 KB KW];
      eapply holds_true; [ repeat holds_step HL Hi | cbn [is_1d]; btauto ]
  end.

Lemma zero_CO2_HCO3_elementwise : elementwise2 zero_CO2_HCO3 zero_CO2_HCO3.
Proof. elementwise (@zero_CO2_HCO3). Qed.

Lemma zero_CO2_CO3_elementwise : elementwise2 zero_CO2_CO3 zero_CO2_CO3.
Proof. elementwise (@zero_CO2_CO3). Qed.

Lemma zero_CO2_TA_elementwise : elementwise3 zero_CO2_TA zero_CO2_TA.
Proof. elementwise (@zero_CO2_TA). Qed.

Lemma zero_CO2_DIC_elementwise : elementwise2 zero_CO2_DIC zero_CO2_DIC.
Proof. elementwise (@zero_CO2_DIC). Qed.

Lemma zero_HCO3_CO3_elementwise : elementwise2 zero_HCO3_CO3 zero_HCO3_CO3.
Proof. elementwise (@zero_HCO3_CO3). Qed.

Lemma zero_HCO3_TA_elementwise : elementwise3 zero_HCO3_TA zero_HCO3_TA.
Proof. elementwise (@zero_HCO3_TA). Qed.

Lemma zero_HCO3_DIC_elementwise : elementwise2 zero_HCO3_DIC zero_HCO3_DIC.
Proof. elementwise (@zero_HCO3_DIC). Qed.

Lemma zero_CO3_TA_elementwise : elementwise3 zero_CO3_TA zero_CO3_TA.
Proof. elementwise (@zero_CO3_TA). Qed.

Lemma zero_CO3_DIC_elementwise : elementwise2 zero_CO3_DIC zero_CO3_DIC.
Proof. elementwise (@zero_CO3_DIC). Qed.

Lemma zero_TA_DIC_elementwise : elementwise3 zero_TA_DIC zero_TA_DIC.
Proof. elementwise (@zero_TA_DIC). Qed.

(** Elementwise independence.  Evaluated by the root finder on a vector of
    unknowns, with species that are scalars or vectors of that length and
    constants that broadcast with K1 and K2 nowhere zero, each of the ten
    residual closures returns a vector of that length, and its entry at an
    index is the scalar residual of the entries at that index. *)
Theorem residuals_are_elementwise :
  elementwise2 zero_CO2_HCO3 zero_CO2_HCO3 /\
  elementwise2 zero_CO2_CO3 zero_CO2_CO3 /\
  elementwise3 zero_CO2_TA zero_CO2_TA /\
  elementwise2 zero_CO2_DIC zero_CO2_DIC /\
  elementwise2 zero_HCO3_CO3 zero_HCO3_CO3 /\
  elementwise3 zero_HCO3_TA zero_HCO3_TA /\
  elementwise2 zero_HCO3_DIC zero_HCO3_DIC /\
  elementwise3 zero_CO3_TA zero_CO3_TA /\
  elementwise2 zero_CO3_DIC zero_CO3_DIC /\
  elementwise3 zero_TA_DIC zero_TA_DIC.
Proof.
  repeat apply conj.
  - exact zero_CO2_HCO3_elementwise.
  - exact zero_CO2_CO3_elementwise.
  - exact zero_CO2_TA_elementwise.
  - exact zero_CO2_DIC_elementwise.
  - exact zero_HCO3_CO3_elementwise.
  - exact zero_HCO3_TA_elementwise.
  - exact zero_HCO3_DIC_elementwise.
  - exact zero_CO3_TA_elementwise.
  - exact zero_CO3_DIC_elementwise.
  - exact zero_TA_DIC_elementwise.
Qed.

(** ** The helpers [lens] and [noms] *)

Section Helpers.

Lemma fold_max_bounds (ns : list nat) (n : nat) :
  n <= fold_left Nat.max ns n /\
  (forall m, In m ns -> m <= fold_left Nat.max ns n) /\
  In (fold_left Nat.max ns n) (n :: ns).
Proof.
  revert n. induction ns as [| k ns IH]; intros n; cbn [fold_left].
  - repeat split; [lia | intros m [] | left; reflexivity].
  - destruct (IH (Nat.max n k)) as [B1 [B2 B3]]. repeat split.
    + lia.
    + intros m [<- | Hm]; [lia | apply B2, Hm].
    + destruct B3 as [E | Hin].
      * rewrite <- E.
        destruct (Nat.max_dec n k) as [M | M]; rewrite M.
        -- left. reflexivity.
        -- right. left. reflexivity.
      * right. right. exact Hin.
Qed.

(** [lens] raises on no item at all; on at least one it returns the largest
    element count: no item is longer, and some item is that long. *)
Theorem lens_is_the_largest_size :
  lens [] = Err ValueError /\
  forall (i : item) (it : list item),
    exists L : nat,
      lens (i :: it) = Ok L /\
      (forall j, In j (i :: it) -> np_size j <= L) /\
      (exists j, In j (i :: it) /\ np_size j = L).
Proof.
  split; [reflexivity |]. intros i it.
  exists (fold_left Nat.max (map np_size it) (np_size i)).
  destruct (fold_max_bounds (map np_size it) (np_size i)) as [B1 [B2 B3]].
  repeat split.
  - intros j [<- | Hj]; [exact B1 | apply B2, in_map, Hj].
  - destruct B3 as [E | Hin].
    + exists i. split; [left; reflexivity | exact E].
    + apply in_map_iff in Hin. destruct Hin as [j [E Hj]].
      exists j. split; [right; exact Hj | exact E].
Qed.

Lemma np_size_nominal_values (i : item) :
  np_size (nominal_values i) = np_size i.
Proof. destruct i as [x | xs]; cbn; [reflexivity | apply length_map]. Qed.

Lemma nominal_values_plain (a : ndarray R) : nominal_values (plain a) = a.
Proof.
  destruct a as [x | xs]; cbn; [reflexivity |].
  f_equal. rewrite map_map. apply map_id.
Qed.

(** [noms] returns one array per item, of the element count of the item,
    and gives plain float inputs back as they are. *)
Theorem noms_keeps_shapes_and_plain_values :
  (forall it : list item, map np_size (noms it) = map np_size it) /\
  (forall l : list (ndarray R), noms (map plain l) = l).
Proof.
  split.
  - intros it. unfold noms. rewrite map_map.
    apply map_ext. exact np_size_nominal_values.
  - intros l. unfold noms. rewrite map_map.
    rewrite (map_ext _ (fun a => a)); [apply map_id |].
    exact nominal_values_plain.
Qed.

Lemma fits_nominal_values (L : nat) (i : item) :
  item_fits L i -> fits L (nominal_values i).
Proof.
  destruct i as [x | xs]; cbn; [trivial |]. rewrite length_map. trivial.
Qed.

End Helpers.

(** ** The shapes of the calls *)

Section Shapes.
Variable fsolve : fsolve_call -> pyarray.

Ltac shaped2 solver elementwise_lemma :=
  intros L A B Ks HL Hpos FA FB HK;
  unfold solver; rewrite HL; cbn [bind noms map];
  eexists; split; [reflexivity |];
  cbn [x0 func args]; rewrite repeat_length; split; [reflexivity |];
  unfold well_shaped; cbn [x0 func args]; rewrite repeat_length;
  match goal with
  | |- context [repeat ?g L] =>
      destruct (elementwise_lemma (repeat g L) (nominal_values A)
                  (nominal_values B) Ks)
        as [rs [E [Hl _]]];
      rewrite ?repeat_length;
      try first [ assumption | apply fits_nominal_values; assumption ];
      exists rs; split; [exact E | rewrite Hl, repeat_length; reflexivity]
  end.

Ltac shaped3 solver elementwise_lemma :=
  intros L A B C Ks HL Hpos FA FB FC HK;
  unfold solver; rewrite HL; cbn [bind noms map];
  eexists; split; [reflexivity |];
  cbn [x0 func args]; rewrite repeat_length; split; [reflexivity |];
  unfold well_shaped; cbn [x0 func args]; rewrite repeat_length;
  match goal with
  | |- context [repeat ?g L] =>
      destruct (elementwise_lemma (repeat g L) (nominal_values A)
                  (nominal_values B) (nominal_values C) Ks)
        as [rs [E [Hl _]]];
      rewrite ?repeat_length;
      try first [ assumption | apply fits_nominal_values; assumption ];
      exists rs; split; [exact E | rewrite Hl, repeat_length; reflexivity]
  end.

(** For inputs that are scalars or vectors of one length L > 0, the length
    [lens] finds, and constants that broadcast, every implicit solver makes
    a call whose guess has length L and whose residual, evaluated at that
    guess on the stripped inputs, returns a vector of length L. *)
Theorem implicit_solvers_make_well_shaped_calls :
  well_shaped2 fsolve (CO2_HCO3 fsolve) /\
  well_shaped2 fsolve (CO2_CO3 fsolve) /\
  well_shaped3 fsolve (CO2_TA fsolve) /\
  well_shaped2 fsolve (CO2_DIC fsolve) /\
  well_shaped2 fsolve (HCO3_CO3 fsolve) /\
  well_shaped3 fsolve (HCO3_TA fsolve) /\
  well_shaped2 fsolve (HCO3_DIC fsolve) /\
  well_shaped3 fsolve (CO3_TA fsolve) /\
  well_shaped2 fsolve (CO3_DIC fsolve) /\
  well_shaped3 fsolve (TA_DIC fsolve).
Proof.
  repeat apply conj.
  - shaped2 CO2_HCO3 zero_CO2_HCO3_elementwise.
  - shaped2 CO2_CO3 zero_CO2_CO3_elementwise.
  - shaped3 CO2_TA zero_CO2_TA_elementwise.
  - shaped2 CO2_DIC zero_CO2_DIC_elementwise.
  - shaped2 HCO3_CO3 zero_HCO3_CO3_elementwise.
  - shaped3 HCO3_TA zero_HCO3_TA_elementwise.
  - shaped2 HCO3_DIC zero_HCO3_DIC_elementwise.
  - shaped3 CO3_TA zero_CO3_TA_elementwise.
  - shaped2 CO3_DIC zero_CO3_DIC_elementwise.
  - shaped3 TA_DIC zero_TA_DIC_elementwise.
Qed.

End Shapes.

(** ** The further properties at concrete inputs *)

Section FurtherWitnesses.
Local Open Scope R_scope.

Let P : 0 < 1 := Rlt_0_1.
Let P2 : 0 < 2 := Rlt_0_2.
Let PB : 0 <= KB unit_Ks := Rlt_le _ _ Rlt_0_1.
Let N1 : (1 : R) <> 0 := R1_neq_R0.

(** Constants K1 = 1 and K2 = 2, for residuals with the roots 2 and -1, or
    1 and 2. *)
Let Ks12 : Ks_t R := mkKs 1 2 1 1.

Lemma zero_CO2_HCO3_root_witness :
  0 < K1 unit_Ks /\ 0 < K2 unit_Ks /\ 0 < 2 /\ (1 : R) <> 0 /\
  (zero_CO2_HCO3 (Ok 2) (Ok 2) (Ok 1) (float_Ks unit_Ks) = Ok 0 <->
   2 = K1 unit_Ks * 2 / 1).
Proof.
  repeat apply conj; try exact P; try exact P2; try exact N1;
    apply (@zero_CO2_HCO3_root unit_Ks P P 2 P2 2 1 N1).
Defined.

Lemma zero_CO2_CO3_root_witness :
  0 < K1 unit_Ks /\ 0 < K2 unit_Ks /\ 0 < 2 /\ 0 < 1 /\
  (zero_CO2_CO3 (Ok 2) (Ok 4) (Ok 1) (float_Ks unit_Ks) = Ok 0 <->
   2 = sqrt (K1 unit_Ks * K2 unit_Ks * 4 / 1)).
Proof.
  repeat apply conj; try exact P; try exact P2;
    apply (@zero_CO2_CO3_root unit_Ks P P 2 P2 4 1 P).
Defined.

Lemma zero_HCO3_CO3_root_witness :
  0 < K1 unit_Ks /\ 0 < K2 unit_Ks /\ 0 < 2 /\ (1 : R) <> 0 /\
  (zero_HCO3_CO3 (Ok 2) (Ok 2) (Ok 1) (float_Ks unit_Ks) = Ok 0 <->
   2 = K2 unit_Ks * 2 / 1).
Proof.
  repeat apply conj; try exact P; try exact P2; try exact N1;
    apply (@zero_HCO3_CO3_root unit_Ks P P 2 P2 2 1 N1).
Defined.

Lemma DIC_residuals_vanish_where_converters_agree_witness :
  0 < K1 unit_Ks /\ 0 < K2 unit_Ks /\ 0 < 1 /\
  (zero_CO2_DIC (Ok 1) (Ok 1) (Ok 3) (float_Ks unit_Ks) = Ok 0 <->
   cCO2 (Ok 1) (Ok 3) (float_Ks unit_Ks) = Ok 1).
Proof.
  repeat apply conj; try exact P;
    apply (proj1 (@DIC_residuals_vanish_where_converters_agree
                    unit_Ks P P 1 1 3 P)).
Defined.

Lemma zero_CO2_DIC_roots_have_opposite_signs_witness :
  0 < K1 Ks12 /\ 0 < K2 Ks12 /\ 0 < 1 < 2 /\ 2 <> -1 /\
  zero_CO2_DIC (Ok 2) (Ok 1) (Ok 2) (float_Ks Ks12) = Ok 0 /\
  zero_CO2_DIC (Ok (-1)) (Ok 1) (Ok 2) (float_Ks Ks12) = Ok 0 /\
  2 * -1 < 0.
Proof.
  assert (B : 0 < 1 < 2) by lra.
  assert (D : 2 <> -1) by lra.
  assert (E1 : zero_CO2_DIC (Ok 2) (Ok 1) (Ok 2) (float_Ks Ks12) = Ok 0).
  { rewrite zero_CO2_DIC_value. f_equal. cbn. ring. }
  assert (E2 : zero_CO2_DIC (Ok (-1)) (Ok 1) (Ok 2) (float_Ks Ks12) = Ok 0).
  { rewrite zero_CO2_DIC_value. f_equal. cbn. ring. }
  repeat apply conj; try exact P; try exact P2; try exact D; try exact E1;
    try exact E2; try apply B.
  exact (@zero_CO2_DIC_roots_have_opposite_signs Ks12 P P2 1 2 2 (-1)
           B D E1 E2).
Defined.

Lemma zero_HCO3_DIC_roots_are_positive_witness :
  0 < K1 Ks12 /\ 0 < K2 Ks12 /\ 0 < 1 < 4 /\
  zero_HCO3_DIC (Ok 1) (Ok 1) (Ok 4) (float_Ks Ks12) = Ok 0 /\
  zero_HCO3_DIC (Ok (K1 Ks12 * K2 Ks12 / 1)) (Ok 1) (Ok 4) (float_Ks Ks12)
    = Ok 0.
Proof.
  assert (B : 0 < 1 < 4) by lra.
  assert (E : zero_HCO3_DIC (Ok 1) (Ok 1) (Ok 4) (float_Ks Ks12) = Ok 0).
  { rewrite (@zero_HCO3_DIC_value Ks12 P). f_equal. cbn. field. }
  repeat apply conj; try exact P; try exact P2; try exact E; try apply B.
  exact (proj2 (proj1 (proj2 (@zero_HCO3_DIC_roots_are_positive Ks12 P P2
                                1 4) B) 1 E)).
Defined.

Lemma zero_CO3_DIC_roots_have_opposite_signs_witness :
  0 < K1 unit_Ks /\ 0 < K2 unit_Ks /\ 0 < 1 < 3 /\ 1 <> -2 /\
  zero_CO3_DIC (Ok 1) (Ok 1) (Ok 3) (float_Ks unit_Ks) = Ok 0 /\
  zero_CO3_DIC (Ok (-2)) (Ok 1) (Ok 3) (float_Ks unit_Ks) = Ok 0 /\
  1 * -2 < 0.
Proof.
  assert (B : 0 < 1 < 3) by lra.
  assert (D : 1 <> -2) by lra.
  assert (E1 : zero_CO3_DIC (Ok 1) (Ok 1) (Ok 3) (float_Ks unit_Ks) = Ok 0).
  { rewrite (@zero_CO3_DIC_value unit_Ks P P). f_equal. cbn. field. }
  assert (E2 : zero_CO3_DIC (Ok (-2)) (Ok 1) (Ok 3) (float_Ks unit_Ks) = Ok 0).
  { rewrite (@zero_CO3_DIC_value unit_Ks P P). f_equal. cbn. field. }
  repeat apply conj; try exact P; try exact D; try exact E1; try exact E2;
    try apply B.
  exact (@zero_CO3_DIC_roots_have_opposite_signs unit_Ks P P 1 3 1 (-2)
           B D E1 E2).
Defined.

Lemma zero_HCO3_TA_vanishes_where_cTA_agrees_witness :
  0 < K1 unit_Ks /\ 0 < K2 unit_Ks /\ 0 <= KB unit_Ks /\ 0 < 1 /\
  (zero_HCO3_TA (Ok 1) (Ok 1) (Ok 4) (Ok 1) (float_Ks unit_Ks) = Ok 0 <->
   cTA (Ok (1 * 1 / K1 unit_Ks)) (Ok 1) (Ok 1) (float_Ks unit_Ks) = Ok 4).
Proof.
  repeat apply conj; try exact P; try exact PB;
    apply (@zero_HCO3_TA_vanishes_where_cTA_agrees unit_Ks P P PB 1 P 1 4 1).
Defined.

Lemma zero_CO3_TA_vanishes_where_cTA_agrees_witness :
  0 < K1 unit_Ks /\ 0 < K2 unit_Ks /\ 0 <= KB unit_Ks /\ 0 < 1 /\
  (zero_CO3_TA (Ok 1) (Ok 1) (Ok 4) (Ok 1) (float_Ks unit_Ks) = Ok 0 <->
   cTA (Ok (1 ^ 2 * 1 / (K1 unit_Ks * K2 unit_Ks))) (Ok 1) (Ok 1)
     (float_Ks unit_Ks) = Ok 4).
Proof.
  repeat apply conj; try exact P; try exact PB;
    apply (@zero_CO3_TA_vanishes_where_cTA_agrees unit_Ks P P PB 1 P 1 4 1).
Defined.

Lemma zero_TA_DIC_vanishes_where_cTA_agrees_witness :
  0 < K1 unit_Ks /\ 0 < K2 unit_Ks /\ 0 <= KB unit_Ks /\ 0 < 1 /\
  (zero_TA_DIC (Ok 1) (Ok 4) (Ok 3) (Ok 1) (float_Ks unit_Ks) = Ok 0 <->
   cTA (cCO2 (Ok 1) (Ok 3) (float_Ks unit_Ks)) (Ok 1) (Ok 1)
     (float_Ks unit_Ks) = Ok 4).
Proof.
  repeat apply conj; try exact P; try exact PB;
    apply (@zero_TA_DIC_vanishes_where_cTA_agrees unit_Ks P P PB 1 P 4 3 1).
Defined.

Lemma usable_unit_Ks (L : nat) : usable_Ks L unit_Ks_arrays.
Proof.
  unfold usable_Ks, unit_Ks_arrays. cbn.
  repeat apply conj; trivial; intros j _; exact N1.
Qed.

Lemma residuals_are_elementwise_witness :
  (0 < length [1; 2])%nat /\ fits (length [1; 2]) (Array [1; 4]) /\
  fits (length [1; 2]) (Scalar 3) /\
  usable_Ks (length [1; 2]) unit_Ks_arrays /\
  exists rs : list R,
    call2 zero_CO3_DIC (Array [1; 2])
      ([Array [1; 4]; Scalar 3], unit_Ks_arrays) = Ok (Array rs) /\
    length rs = length [1; 2] /\
    forall i, (i < length [1; 2])%nat ->
      zero_CO3_DIC (Ok (nth i [1; 2] 0)) (Ok (entry (Array [1; 4]) i))
        (Ok (entry (Scalar 3) i)) (float_Ks (Ks_at unit_Ks_arrays i)) =
      Ok (nth i rs 0).
Proof.
  assert (HL : (0 < length [1; 2])%nat) by (cbn; lia).
  assert (FA : fits (length [1; 2]) (Array [1; 4])) by reflexivity.
  split; [exact HL |]. split; [exact FA |]. split; [exact I |].
  split; [exact (usable_unit_Ks 2) |].
  exact (proj1 (proj2 (proj2 (proj2 (proj2 (proj2 (proj2 (proj2 (proj2
           residuals_are_elementwise))))))))
           [1; 2] (Array [1; 4]) (Scalar 3) unit_Ks_arrays HL FA I
           (usable_unit_Ks 2)).
Defined.

Lemma implicit_solvers_make_well_shaped_calls_witness :
  lens [Array [UFloat (mkU 1 (fun _ => 1)); Float 2; Float 4];
        Scalar (Float 3)] = Ok 3%nat /\
  (0 < 3)%nat /\
  item_fits 3 (Array [UFloat (mkU 1 (fun _ => 1)); Float 2; Float 4]) /\
  item_fits 3 (Scalar (Float 3)) /\
  usable_Ks 3 unit_Ks_arrays /\
  exists c : fsolve_call,
    CO3_DIC fsolve_no_iteration
      (Array [UFloat (mkU 1 (fun _ => 1)); Float 2; Float 4])
      (Scalar (Float 3)) unit_Ks_arrays = fsolve_no_iteration c /\
    length (x0 c) = 3%nat /\ well_shaped c.
Proof.
  assert (HL : (0 < 3)%nat) by lia.
  assert (FA : item_fits 3
                 (Array [UFloat (mkU 1 (fun _ => 1)); Float 2; Float 4]))
    by reflexivity.
  split; [reflexivity |]. split; [exact HL |]. split; [exact FA |].
  split; [exact I |]. split; [exact (usable_unit_Ks 3) |].
  exact (proj1 (proj2 (proj2 (proj2 (proj2 (proj2 (proj2 (proj2 (proj2
           (implicit_solvers_make_well_shaped_calls
              fsolve_no_iteration)))))))))
           3%nat (Array [UFloat (mkU 1 (fun _ => 1)); Float 2; Float 4])
           (Scalar (Float 3)) unit_Ks_arrays
           eq_refl HL FA I (usable_unit_Ks 3)).
Defined.

End FurtherWitnesses.

(** * Uncertainties, the root of [CO3_DIC], inputs as given *)

(** ** First-order propagation *)

Section FirstOrder.
Local Open Scope R_scope.
Variable s : nat.

Lemma derive_ext (f g : R -> R) (x l l' : R) :
  (forall t, f t = g t) -> l = l' ->
  derivable_pt_lim f x l -> derivable_pt_lim g x l'.
Proof.
  intros E <- D eps Heps. destruct (D eps Heps) as [delta Hd].
  exists delta. intros h Hh Hlt. rewrite <- !E. apply Hd; assumption.
Qed.

Lemma propagates_input (u : ufloat) :
  propagates s (Ok u) (fun t => shift s t u).
Proof.
  exists u. split; [reflexivity |]. split; [unfold shift; ring |].
  apply derive_ext with
           (f := (fct_cte (nominal_value u) + mult_real_fct (err u s) id)%F)
           (l := 0 + err u s * 1).
  - intros t. unfold shift, plus_fct, fct_cte, mult_real_fct, id. ring.
  - ring.
  - apply derivable_pt_lim_plus;
      [apply derivable_pt_lim_const
      | apply derivable_pt_lim_scal, derivable_pt_lim_id].
Qed.

Lemma propagates_lit (z : Z) :
  propagates s (lit z) (fun _ => lit z).
Proof.
  exists (mkU (IZR z) (fun _ => 0)). split; [reflexivity |].
  split; [reflexivity |]. apply (derivable_pt_lim_const (IZR z)).
Qed.

Lemma propagates_add (U V : pyufloat) (f g : R -> R) :
  propagates s U f -> propagates s V g ->
  propagates s (U + V)%py (fun t => (f t + g t)%py).
Proof.
  intros [u [-> [Nu Du]]] [v [-> [Nv Dv]]]. eexists. split; [reflexivity |].
  cbn [nominal_value err]. split; [rewrite Nu, Nv; reflexivity |].
  exact (derivable_pt_lim_plus _ _ _ _ _ Du Dv).
Qed.

Lemma propagates_sub (U V : pyufloat) (f g : R -> R) :
  propagates s U f -> propagates s V g ->
  propagates s (U - V)%py (fun t => (f t - g t)%py).
Proof.
  intros [u [-> [Nu Du]]] [v [-> [Nv Dv]]]. eexists. split; [reflexivity |].
  cbn [nominal_value err]. split; [rewrite Nu, Nv; reflexivity |].
  exact (derivable_pt_lim_minus _ _ _ _ _ Du Dv).
Qed.

Lemma propagates_mul (U V : pyufloat) (f g : R -> R) :
  propagates s U f -> propagates s V g ->
  propagates s (U * V)%py (fun t => (f t * g t)%py).
Proof.
  intros [u [-> [Nu Du]]] [v [-> [Nv Dv]]]. eexists. split; [reflexivity |].
  cbn [nominal_value err]. split; [rewrite Nu, Nv; reflexivity |].
  rewrite Nu, Nv.
  exact (derivable_pt_lim_mult _ _ _ _ _ Du Dv).
Qed.

Lemma propagates_div (U V : pyufloat) (f g : R -> R) :
  propagates s U f -> propagates s V g -> g 0 <> 0 ->
  propagates s (U / V)%py (fun t => (f t / g t)%py).
Proof.
  intros [u [-> [Nu Du]]] [v [-> [Nv Dv]]] Hg.
  cbn. unfold udiv. rewrite Nv.
  destruct (Req_dec_T (g 0) 0) as [E | _]; [contradiction |].
  eexists. split; [reflexivity |].
  cbn [nominal_value err]. split; [rewrite Nu; reflexivity |].
  rewrite Nu.
  apply derive_ext with (f := (f / g)%F)
           (l := (err u s * g 0 - err v s * f 0) / (g 0)²).
  - intros t. reflexivity.
  - unfold Rsqr. field. assumption.
  - exact (derivable_pt_lim_div _ _ _ _ _ Du Dv Hg).
Qed.

Lemma propagates_pow (U : pyufloat) (f : R -> R) (n : nat) :
  propagates s U f -> propagates s (U ** n)%py (fun t => (f t ** n)%py).
Proof.
  intros [u [-> [Nu Du]]]. eexists. split; [reflexivity |].
  cbn [upow nominal_value err]. split; [rewrite Nu; reflexivity |].
  rewrite Nu.
  apply derive_ext with (f := comp (fun y => y ^ n) f)
           (l := INR n * f 0 ^ Init.Nat.pred n * err u s).
  - intros t. reflexivity.
  - rewrite Nat.sub_1_r. reflexivity.
  - apply derivable_pt_lim_comp; [exact Du | apply derivable_pt_lim_pow].
Qed.

Lemma propagates_ch (U : pyufloat) (f : R -> R) :
  propagates s U f ->
  propagates s (ch_ufloat U) (fun t => ch_R (f t)).
Proof.
  intros [u [-> [Nu Du]]]. eexists. split; [reflexivity |].
  cbn [nominal_value err]. split; [rewrite Nu; reflexivity |].
  rewrite Nu. unfold ch_R, Rpower.
  apply derive_ext with (f := comp exp (mult_real_fct (ln 10) (- f)%F))
           (l := exp (- f 0 * ln 10) * (ln 10 * - err u s)).
  - intros t. unfold comp, mult_real_fct, opp_fct. f_equal. ring.
  - ring.
  - apply derivable_pt_lim_comp.
    + apply derivable_pt_lim_scal, derivable_pt_lim_opp, Du.
    + unfold mult_real_fct, opp_fct.
      replace (ln 10 * - f 0) with (- f 0 * ln 10) by ring.
      apply derivable_pt_lim_exp.
Qed.

End FirstOrder.

Lemma shift_0 (s : nat) (u : ufloat) : shift s 0 u = nominal_value u.
Proof. unfold shift. ring. Qed.

Ltac propagate_step side :=
  first
    [ apply propagates_input | apply propagates_lit
    | eapply propagates_add | eapply propagates_sub | eapply propagates_mul
    | eapply propagates_pow | eapply propagates_ch
    | eapply propagates_div; [ | | side ] ].

Section Propagation.
Local Open Scope R_scope.
Variable s : nat.
Variable Ks : Ks_t ufloat.
Hypothesis K1_pos : 0 < nominal_value (K1 Ks).
Hypothesis K2_pos : 0 < nominal_value (K2 Ks).
Hypothesis KB_nonneg : 0 <= nominal_value (KB Ks).

Let Kn : Ks_t R := Ks_map nominal_value Ks.

Ltac physical H_pos :=
  cbv beta; rewrite ?shift_0; cbn [add sub mul div pow lit Num_R];
  first
    [ apply Rgt_not_eq; assumption
    | apply Rgt_not_eq; exact H_pos
    | apply pow_nonzero', Rgt_not_eq; assumption
    | apply pow_nonzero', Rgt_not_eq; exact H_pos
    | apply mult_nonzero; apply Rgt_not_eq; assumption
    | apply Rgt_not_eq; exact (den_CO2_pos H_pos K1_pos K2_pos)
    | apply Rgt_not_eq; exact (den_HCO3_pos H_pos K1_pos K2_pos)
    | apply Rgt_not_eq; exact (den_CO3_pos H_pos K1_pos K2_pos)
    | apply Rgt_not_eq; exact (@ratio_alk_pos _ Kn H_pos K1_pos K2_pos)
    | apply Rgt_not_eq; pose proof H_pos; lra ].

Ltac propagate zero H_pos :=
  unfold zero; cbv zeta; cbn [Ks_map K1 K2 KB KW];
  repeat propagate_step ltac:(physical H_pos).

Variable H x BT : ufloat.
Hypothesis H_pos : 0 < nominal_value H.

Lemma cCO2_first_order :
  propagates s (cCO2 (Ok H) (Ok x) (Ks_map Ok Ks))
    (fun t => cCO2 (shift s t H) (shift s t x) (Ks_map (shift s t) Ks)).
Proof. propagate (@cCO2) H_pos. Qed.

Lemma cHCO3_first_order :
  propagates s (cHCO3 (Ok H) (Ok x) (Ks_map Ok Ks))
    (fun t => cHCO3 (shift s t H) (shift s t x) (Ks_map (shift s t) Ks)).
Proof. propagate (@cHCO3) H_pos. Qed.

Lemma cCO3_first_order :
  propagates s (cCO3 (Ok H) (Ok x) (Ks_map Ok Ks))
    (fun t => cCO3 (shift s t H) (shift s t x) (Ks_map (shift s t) Ks)).
Proof. propagate (@cCO3) H_pos. Qed.

Lemma cTA_first_order :
  propagates s (cTA (Ok x) (Ok H) (Ok BT) (Ks_map Ok Ks))
    (fun t => cTA (shift s t x) (shift s t H) (shift s t BT)
                (Ks_map (shift s t) Ks)).
Proof. propagate (@cTA) H_pos. Qed.

Variable pH : ufloat.

Let h_pos : 0 < ch_R (nominal_value pH) := ch_pos (nominal_value pH).

Lemma CO2_pH_first_order :
  propagates s (CO2_pH ch_ufloat (Ok x) (Ok pH) (Ks_map Ok Ks))
    (fun t => CO2_pH ch_R (shift s t x) (shift s t pH)
                (Ks_map (shift s t) Ks)).
Proof. propagate (@CO2_pH) h_pos. Qed.

Lemma pH_HCO3_first_order :
  propagates s (pH_HCO3 ch_ufloat (Ok pH) (Ok x) (Ks_map Ok Ks))
    (fun t => pH_HCO3 ch_R (shift s t pH) (shift s t x)
                (Ks_map (shift s t) Ks)).
Proof. propagate (@pH_HCO3) h_pos. Qed.

Lemma pH_CO3_first_order :
  propagates s (pH_CO3 ch_ufloat (Ok pH) (Ok x) (Ks_map Ok Ks))
    (fun t => pH_CO3 ch_R (shift s t pH) (shift s t x)
                (Ks_map (shift s t) Ks)).
Proof. propagate (@pH_CO3) h_pos. Qed.

Lemma pH_TA_first_order :
  propagates s (pH_TA ch_ufloat (Ok pH) (Ok x) (Ok BT) (Ks_map Ok Ks))
    (fun t => pH_TA ch_R (shift s t pH) (shift s t x) (shift s t BT)
                (Ks_map (shift s t) Ks)).
Proof. propagate (@pH_TA) h_pos. Qed.

Lemma pH_DIC_first_order :
  propagates s (pH_DIC ch_ufloat (Ok pH) (Ok x) (Ks_map Ok Ks))
    (fun t => pH_DIC ch_R (shift s t pH) (shift s t x)
                (Ks_map (shift s t) Ks)).
Proof. propagate (@pH_DIC) h_pos. Qed.

End Propagation.

(** ** Stripping before the root finder *)

Section Stripping.

Lemma strips_to_nominal (x : number) (r : R) : strips_to x r -> nominal x = r.
Proof. intros []; reflexivity. Qed.

Lemma strips_to_total (x : number) : strips_to x (nominal x).
Proof. destruct x as [r | [n e]]; constructor. Qed.

Lemma stripped_nominal_values (a : item) (a0 : ndarray R) :
  stripped a a0 -> nominal_values a = a0.
Proof.
  intros [x r Hx | xs rs Hxs]; cbn.
  - f_equal. apply strips_to_nominal, Hx.
  - f_equal. induction Hxs as [| x r xs rs Hx _ IH]; cbn; [reflexivity |].
    rewrite IH. f_equal. apply strips_to_nominal, Hx.
Qed.

Lemma stripped_total (a : item) : stripped a (nominal_values a).
Proof.
  destruct a as [x | xs]; constructor.
  - apply strips_to_total.
  - induction xs as [| x xs IH]; cbn; constructor;
      [apply strips_to_total | exact IH].
Qed.

Lemma stripped_unique (a : item) (a0 a1 : ndarray R) :
  stripped a a0 -> stripped a a1 -> a0 = a1.
Proof.
  intros H0 H1. rewrite <- (stripped_nominal_values H0).
  apply stripped_nominal_values, H1.
Qed.

Lemma stripped_np_size (a : item) (a0 : ndarray R) :
  stripped a a0 -> np_size a = np_size (plain a0).
Proof.
  intros [x r _ | xs rs Hxs]; cbn; [reflexivity |].
  rewrite length_map. exact (Forall2_length Hxs).
Qed.

Variable fsolve : fsolve_call -> pyarray.

Ltac handed solver :=
  intros a b; intros;
  repeat match goal with
    | S : stripped ?i ?i0 |- _ =>
        pose proof (stripped_nominal_values S);
        pose proof (stripped_np_size S); clear S
    end;
  split;
  [ eexists; split; [reflexivity |]; cbn [args noms map]; congruence
  | unfold solver, lens, noms; cbn [map fold_left bind];
    rewrite !nominal_values_plain; congruence ].

Lemma implicit_solvers_hand_over :
  hands_over2 fsolve (CO2_HCO3 fsolve) /\
  hands_over2 fsolve (CO2_CO3 fsolve) /\
  hands_over3 fsolve (CO2_TA fsolve) /\
  hands_over2 fsolve (CO2_DIC fsolve) /\
  hands_over2 fsolve (HCO3_CO3 fsolve) /\
  hands_over3 fsolve (HCO3_TA fsolve) /\
  hands_over2 fsolve (HCO3_DIC fsolve) /\
  hands_over3 fsolve (CO3_TA fsolve) /\
  hands_over2 fsolve (CO3_DIC fsolve) /\
  hands_over3 fsolve (TA_DIC fsolve).
Proof.
  repeat apply conj.
  - handed CO2_HCO3.
  - handed CO2_CO3.
  - handed CO2_TA.
  - handed CO2_DIC.
  - handed HCO3_CO3.
  - handed HCO3_TA.
  - handed HCO3_DIC.
  - handed CO3_TA.
  - handed CO3_DIC.
  - handed TA_DIC.
Qed.

End Stripping.

(** ** Which root [CO3_DIC] returns *)

Section RootReached.
Local Open Scope R_scope.
Variable Ks : Ks_t R.
Hypothesis K1_pos : 0 < K1 Ks.
Hypothesis K2_pos : 0 < K2 Ks.
Variable CO3 DIC : R.
Hypothesis physical : 0 < CO3 < DIC.

Let c : fsolve_call :=
  Fsolve (call2 zero_CO3_DIC) [1] ([Scalar CO3; Scalar DIC], Ks_map Scalar Ks)
    1e-12.
Let D : R := K1 Ks ^ 2 + 4 * K1 Ks * K2 Ks * (DIC - CO3) / CO3.


Let r : R := sqrt D.









End RootReached.

Section RootReturned.
Local Open Scope R_scope.



End RootReturned.

(** ** Inputs outside the physical range, as given *)

Section AsGiven.
Local Open Scope R_scope.
Variable Ks : Ks_t R.



End AsGiven.

Section AsGivenWitness.
Local Open Scope R_scope.


End AsGivenWitness.

(** ** Uncertainties *)

Section Uncertainty.
Local Open Scope R_scope.

(** C7.  Every input has one array of nominal values: an element without
    uncertainty gives its value, an element with one its nominal value.
    Every implicit solver hands those arrays, for all its species inputs,
    to the root finder, and returns what it returns on them given as plain
    inputs.  The direct-formula solvers and the converters strip nothing:
    on uncertain species, pH or H, BT and constants alike, the result has
    the nominal value of the formula, and on every error source the
    first-order term of the formula in all the inputs that carry that
    source. *)
Theorem uncertainty_is_stripped_only_before_root_finding :
  (forall a : item,
     exists a0 : ndarray R,
       stripped a a0 /\ forall a1, stripped a a1 -> a1 = a0) /\
  (forall fsolve : fsolve_call -> pyarray,
     hands_over2 fsolve (CO2_HCO3 fsolve) /\
     hands_over2 fsolve (CO2_CO3 fsolve) /\
     hands_over3 fsolve (CO2_TA fsolve) /\
     hands_over2 fsolve (CO2_DIC fsolve) /\
     hands_over2 fsolve (HCO3_CO3 fsolve) /\
     hands_over3 fsolve (HCO3_TA fsolve) /\
     hands_over2 fsolve (HCO3_DIC fsolve) /\
     hands_over3 fsolve (CO3_TA fsolve) /\
     hands_over2 fsolve (CO3_DIC fsolve) /\
     hands_over3 fsolve (TA_DIC fsolve)) /\
  (forall (s : nat) (Ks : Ks_t ufloat) (pH H x BT : ufloat),
     0 < nominal_value (K1 Ks) -> 0 < nominal_value (K2 Ks) ->
     0 <= nominal_value (KB Ks) -> 0 < nominal_value H ->
     let K := Ks_map Ok Ks in
     let Kt := fun t => Ks_map (shift s t) Ks in
     propagates s (CO2_pH ch_ufloat (Ok x) (Ok pH) K)
       (fun t => CO2_pH ch_R (shift s t x) (shift s t pH) (Kt t)) /\
     propagates s (pH_HCO3 ch_ufloat (Ok pH) (Ok x) K)
       (fun t => pH_HCO3 ch_R (shift s t pH) (shift s t x) (Kt t)) /\
     propagates s (pH_CO3 ch_ufloat (Ok pH) (Ok x) K)
       (fun t => pH_CO3 ch_R (shift s t pH) (shift s t x) (Kt t)) /\
     propagates s (pH_TA ch_ufloat (Ok pH) (Ok x) (Ok BT) K)
       (fun t => pH_TA ch_R (shift s t pH) (shift s t x) (shift s t BT)
                   (Kt t)) /\
     propagates s (pH_DIC ch_ufloat (Ok pH) (Ok x) K)
       (fun t => pH_DIC ch_R (shift s t pH) (shift s t x) (Kt t)) /\
     propagates s (cCO2 (Ok H) (Ok x) K)
       (fun t => cCO2 (shift s t H) (shift s t x) (Kt t)) /\
     propagates s (cHCO3 (Ok H) (Ok x) K)
       (fun t => cHCO3 (shift s t H) (shift s t x) (Kt t)) /\
     propagates s (cCO3 (Ok H) (Ok x) K)
       (fun t => cCO3 (shift s t H) (shift s t x) (Kt t)) /\
     propagates s (cTA (Ok x) (Ok H) (Ok BT) K)
       (fun t => cTA (shift s t x) (shift s t H) (shift s t BT) (Kt t))).
Proof.
  split; [| split].
  - intros a. exists (nominal_values a). split; [apply stripped_total |].
    intros a1 H1. exact (stripped_unique H1 (stripped_total a)).
  - intros fsolve. apply implicit_solvers_hand_over.
  - intros s Ks pH H x BT H1 H2 HB HH K Kt. repeat apply conj.
    + apply CO2_pH_first_order; assumption.
    + apply pH_HCO3_first_order; assumption.
    + apply pH_CO3_first_order; assumption.
    + apply pH_TA_first_order; assumption.
    + apply pH_DIC_first_order; assumption.
    + apply cCO2_first_order; assumption.
    + apply cHCO3_first_order; assumption.
    + apply cCO3_first_order; assumption.
    + apply cTA_first_order; assumption.
Qed.

Let u1 : ufloat := mkU 1 (fun _ => 1).
Let u3 : ufloat := mkU 3 (fun _ => 1).
Let Ku : Ks_t ufloat := mkKs u1 u1 u1 u1.

Lemma uncertainty_is_stripped_only_before_root_finding_witness :
  0 < nominal_value (K1 Ku) /\ 0 < nominal_value (K2 Ku) /\
  0 <= nominal_value (KB Ku) /\ 0 < nominal_value u1 /\
  propagates 0 (cCO2 (Ok u1) (Ok u3) (Ks_map Ok Ku))
    (fun t => cCO2 (shift 0 t u1) (shift 0 t u3) (Ks_map (shift 0 t) Ku)).
Proof.
  assert (P : 0 < 1) by lra.
  assert (Q : 0 <= 1) by lra.
  split; [exact P |]. split; [exact P |]. split; [exact Q |].
  split; [exact P |].
  exact (proj1 (proj2 (proj2 (proj2 (proj2 (proj2
           (proj2 (proj2 uncertainty_is_stripped_only_before_root_finding)
              0%nat Ku u1 u1 u3 u1 P P Q P))))))).
Defined.

End Uncertainty.
